(** * client-storage-utility: a shallow embedding of [src/clientStorage.ts]

    The development models the storage facade returned by
    [createClientStorage], the two singleton classes [CookieStorage] and
    [MemoryStorage], and the host facilities the code calls
    ([JSON.stringify], [JSON.parse], [decodeURIComponent], the native
    [Storage] objects, [document.cookie] and [Date.prototype.toUTCString]).

    JavaScript strings are sequences of UTF-16 code units; a code unit is a
    number of type [N] and a string is a [list N].  Host stores that the code
    uses as plain maps ([localStorage], [sessionStorage], the [Map] of
    [MemoryStorage]) are [gmap]s; JavaScript objects are association lists in
    property order, because [JSON.stringify] prints them in that order. *)

From Stdlib Require Import String Ascii.
From stdpp Require Import gmap list.

Local Open Scope N_scope.

Abbreviation jsstring := (list N) (only parsing).

(** ** String literals *)

Fixpoint js (s : string) : list N :=
  match s with
  | EmptyString => []
  | String a r => N_of_ascii a :: js r
  end.

(** [jsq] reads an apostrophe in the literal as a double quote, so that JSON
    text can be written down legibly. *)
Fixpoint jsq (s : string) : list N :=
  match s with
  | EmptyString => []
  | String a r => (if N_of_ascii a =? 39 then 34 else N_of_ascii a) :: jsq r
  end.

(** [s.indexOf(p) == 0] *)
Fixpoint starts_with (p s : list N) : bool :=
  match p, s with
  | [], _ => true
  | x :: p', y :: s' => (x =? y) && starts_with p' s'
  | _ :: _, [] => false
  end.

(** [s.split(sep)] for a one-unit separator. *)
Fixpoint split_on (sep : N) (s : list N) : list (list N) :=
  match s with
  | [] => [[]]
  | c :: r =>
      if c =? sep then [] :: split_on sep r
      else match split_on sep r with
           | seg :: segs => (c :: seg) :: segs
           | [] => [[c]]
           end
  end.

(** ** Errors and outcomes of a call *)

Inductive js_error :=
| Error (message : list N)   (* [new Error(message)] thrown by the facade *)
| SyntaxError                (* thrown by [JSON.parse] *)
| TypeError                  (* property access on [null] *)
| URIError.                  (* thrown by [decodeURIComponent] *)

(** [Unmodelled] marks the runs that leave the part of JavaScript modelled
    here (see [JSON_stringify] and [set_document_cookie]); no theorem draws a
    conclusion from it. *)
Inductive outcome (A : Type) :=
| Ret (a : A)
| Throw (e : js_error)
| Unmodelled.
Arguments Ret {A} a.
Arguments Throw {A} e.
Arguments Unmodelled {A}.

(** ** JSON values *)

(** A number keeps the text it was read from: its numeric value is never
    needed except to decide whether it is zero. *)
Local Unset Elimination Schemes.
Inductive json :=
| JNull
| JBool (b : bool)
| JNum (lexeme : list N)
| JStr (s : list N)
| JArr (elements : list json)
| JObj (members : list (list N * json)).
Local Set Elimination Schemes.

(** ** Ordinary objects as ordered property lists *)

Definition is_digit (c : N) : bool := (48 <=? c) && (c <=? 57).

Fixpoint digits_value (acc : N) (s : list N) : option N :=
  match s with
  | [] => Some acc
  | c :: r => if is_digit c then digits_value (10 * acc + (c - 48)) r else None
  end.

(** An array index is a canonical numeric string denoting an integer below
    [2^32 - 1]; own property keys that are array indices are enumerated
    first, in ascending order. *)
Definition array_index (k : list N) : option N :=
  match k with
  | [] => None
  | [48] => Some 0
  | 48 :: _ => None
  | _ =>
      if (length k <=? 10)%nat then
        match digits_value 0 k with
        | Some n => if n <? 4294967295 then Some n else None
        | None => None
        end
      else None
  end.

Section Objects.
Context {V : Type}.

Fixpoint obj_get_own (k : list N) (o : list (list N * V)) : option V :=
  match o with
  | [] => None
  | (k', v) :: r => if decide (k' = k) then Some v else obj_get_own k r
  end.

Definition obj_has_own (k : list N) (o : list (list N * V)) : bool :=
  match obj_get_own k o with Some _ => true | None => false end.

Fixpoint obj_replace (k : list N) (v : V) (o : list (list N * V)) : list (list N * V) :=
  match o with
  | [] => []
  | (k', v') :: r =>
      if decide (k' = k) then (k', v) :: r else (k', v') :: obj_replace k v r
  end.

(** Position of a new array-index key [i]: before the first property that
    is not an array index or has a larger index. *)
Fixpoint obj_insert_index (i : N) (k : list N) (v : V) (o : list (list N * V))
  : list (list N * V) :=
  match o with
  | [] => [(k, v)]
  | (k', v') :: r =>
      match array_index k' with
      | Some j => if j <? i then (k', v') :: obj_insert_index i k v r
                  else (k, v) :: (k', v') :: r
      | None => (k, v) :: (k', v') :: r
      end
  end.

(** [CreateDataProperty(o, k, v)]: define or overwrite an own property. *)
Definition obj_define (k : list N) (v : V) (o : list (list N * V)) : list (list N * V) :=
  if obj_has_own k o then obj_replace k v o
  else match array_index k with
       | Some i => obj_insert_index i k v o
       | None => o ++ [(k, v)]
       end.

(** [delete o[k]] *)
Fixpoint obj_delete (k : list N) (o : list (list N * V)) : list (list N * V) :=
  match o with
  | [] => []
  | (k', v') :: r =>
      if decide (k' = k) then obj_delete k r else (k', v') :: obj_delete k r
  end.

(** The object built from members in source order: a later duplicate
    overwrites the value and keeps the place of the first. *)
Definition obj_build (ms : list (list N * V)) : list (list N * V) :=
  fold_left (fun o kv => obj_define (fst kv) (snd kv) o) ms [].
End Objects.

(** ** [JSON.stringify] *)

Definition hex_digit (d : N) : N := if d <? 10 then 48 + d else 87 + d.

(** A backslash, [u] and four lower-case hexadecimal digits. *)
Definition unicode_escape (c : N) : list N :=
  [92; 117; hex_digit (c / 4096 mod 16); hex_digit (c / 256 mod 16);
   hex_digit (c / 16 mod 16); hex_digit (c mod 16)].

Definition is_high_surrogate (c : N) : bool := (55296 <=? c) && (c <=? 56319).
Definition is_low_surrogate (c : N) : bool := (56320 <=? c) && (c <=? 57343).

(** The two-character escapes of [QuoteJSONString]. *)
Definition short_escape (c : N) : option N :=
  if c =? 8 then Some 98          (* backspace, b *)
  else if c =? 9 then Some 116    (* tab, t *)
  else if c =? 10 then Some 110   (* line feed, n *)
  else if c =? 12 then Some 102   (* form feed, f *)
  else if c =? 13 then Some 114   (* carriage return, r *)
  else if c =? 34 then Some 34    (* double quote *)
  else if c =? 92 then Some 92    (* backslash *)
  else None.

(** The body of [QuoteJSONString]: the string is read code point by code
    point; a surrogate pair is copied, a lone surrogate is escaped. *)
Fixpoint quote_units (s : list N) : list N :=
  match s with
  | [] => []
  | c :: r =>
      match short_escape c with
      | Some e => 92 :: e :: quote_units r
      | None =>
          if c <? 32 then unicode_escape c ++ quote_units r
          else if is_high_surrogate c then
            match r with
            | d :: r' =>
                if is_low_surrogate d then c :: d :: quote_units r'
                else unicode_escape c ++ quote_units r
            | [] => unicode_escape c
            end
          else if is_low_surrogate c then unicode_escape c ++ quote_units r
          else c :: quote_units r
      end
  end.

Definition QuoteJSONString (s : list N) : list N := 34 :: quote_units s ++ [34].
Arguments QuoteJSONString : simpl never.

(** Members are printed as [key:value] separated by commas.  Only string
    values are printed; an object holding anything else (a number would need
    the host's number-to-string conversion) is outside the model. *)
Fixpoint stringify_members (ms : list (list N * json)) : option (list N) :=
  match ms with
  | [] => Some []
  | (k, JStr v) :: r =>
      match stringify_members r with
      | Some t =>
          Some (QuoteJSONString k ++ 58 :: QuoteJSONString v
                  ++ match r with [] => [] | _ => 44 :: t end)
      | None => None
      end
  | _ => None
  end.

(** [JSON.stringify(o)] for an ordinary object [o]. *)
Definition JSON_stringify (o : list (list N * json)) : option (list N) :=
  match stringify_members o with
  | Some t => Some (123 :: t ++ [125])
  | None => None
  end.

(** ** [JSON.parse] *)

Inductive presult (A : Type) :=
| POk (a : A) (rest : list N)
| PErr
| PFuel.
Arguments POk {A} a rest.
Arguments PErr {A}.
Arguments PFuel {A}.

Definition is_ws (c : N) : bool :=
  (c =? 32) || (c =? 9) || (c =? 10) || (c =? 13).

Fixpoint skip_ws (s : list N) : list N :=
  match s with
  | c :: r => if is_ws c then skip_ws r else s
  | [] => []
  end.

Definition hex_value (c : N) : option N :=
  if is_digit c then Some (c - 48)
  else if (97 <=? c) && (c <=? 102) then Some (c - 87)
  else if (65 <=? c) && (c <=? 70) then Some (c - 55)
  else None.

Definition hex4_value (a b c d : N) : option N :=
  match hex_value a, hex_value b, hex_value c, hex_value d with
  | Some x, Some y, Some z, Some w => Some (4096 * x + 256 * y + 16 * z + w)
  | _, _, _, _ => None
  end.

Definition unescape (e : N) : option N :=
  if e =? 34 then Some 34
  else if e =? 92 then Some 92
  else if e =? 47 then Some 47
  else if e =? 98 then Some 8
  else if e =? 102 then Some 12
  else if e =? 110 then Some 10
  else if e =? 114 then Some 13
  else if e =? 116 then Some 9
  else None.

Definition cons_fst {A B} (a : A) (p : option (list A * B)) : option (list A * B) :=
  match p with
  | Some (l, b) => Some (a :: l, b)
  | None => None
  end.

(** The characters of a JSON string after its opening quote, up to and
    including the closing quote. *)
Fixpoint parse_string_body (s : list N) : option (list N * list N) :=
  match s with
  | [] => None
  | c :: r =>
      if c =? 34 then Some ([], r)
      else if c =? 92 then
        match r with
        | [] => None
        | e :: r1 =>
            if e =? 117 then
              match r1 with
              | h1 :: h2 :: h3 :: h4 :: r2 =>
                  match hex4_value h1 h2 h3 h4 with
                  | Some u => cons_fst u (parse_string_body r2)
                  | None => None
                  end
              | _ => None
              end
            else
              match unescape e with
              | Some u => cons_fst u (parse_string_body r1)
              | None => None
              end
        end
      else if c <? 32 then None
      else cons_fst c (parse_string_body r)
  end.

Fixpoint take_digits (s : list N) : list N * list N :=
  match s with
  | c :: r =>
      if is_digit c then let '(d, t) := take_digits r in (c :: d, t) else ([], s)
  | [] => ([], [])
  end.

(** One or more digits. *)
Definition lex_digits1 (s : list N) : option (list N * list N) :=
  match take_digits s with
  | ([], _) => None
  | (d, t) => Some (d, t)
  end.

(** The rest of [s] after the unit [c], when [s] begins with it. *)
Definition expect (c : N) (s : list N) : option (list N) :=
  match s with
  | x :: r => if x =? c then Some r else None
  | [] => None
  end.

Definition lex_int (s : list N) : option (list N * list N) :=
  match expect 48 s with
  | Some r => Some ([48], r)
  | None => lex_digits1 s
  end.

Definition lex_frac (s : list N) : option (list N * list N) :=
  match expect 46 s with
  | Some r =>
      match lex_digits1 r with
      | Some (d, t) => Some (46 :: d, t)
      | None => None
      end
  | None => Some ([], s)
  end.

Definition lex_exp (s : list N) : option (list N * list N) :=
  match s with
  | e :: r =>
      if (e =? 101) || (e =? 69) then
        let '(sign, r1) :=
          match r with
          | g :: r' => if (g =? 43) || (g =? 45) then ([g], r') else ([], r)
          | [] => ([], r)
          end in
        match lex_digits1 r1 with
        | Some (d, t) => Some (e :: sign ++ d, t)
        | None => None
        end
      else Some ([], s)
  | [] => Some ([], s)
  end.

(** [-? int frac? exp?] *)
Definition lex_number (s : list N) : option (list N * list N) :=
  let '(sign, s1) := match expect 45 s with Some r => ([45], r) | None => ([], s) end in
  match lex_int s1 with
  | Some (i, s2) =>
      match lex_frac s2 with
      | Some (f, s3) =>
          match lex_exp s3 with
          | Some (e, s4) => Some (sign ++ i ++ f ++ e, s4)
          | None => None
          end
      | None => None
      end
  | None => None
  end.

Definition pmap {A B : Type} (g : A -> B) (p : presult A) : presult B :=
  match p with
  | POk a rest => POk (g a) rest
  | PErr => PErr
  | PFuel => PFuel
  end.

Fixpoint parse_value (fuel : nat) (s : list N) {struct fuel} : presult json :=
  match fuel with
  | O => PFuel
  | S f =>
      match skip_ws s with
      | [] => PErr
      | c :: r =>
          if c =? 123 then
            match expect 125 (skip_ws r) with
            | Some r' => POk (JObj []) r'
            | None => pmap (fun ms => JObj (obj_build ms)) (parse_members f r)
            end
          else if c =? 91 then
            match expect 93 (skip_ws r) with
            | Some r' => POk (JArr []) r'
            | None => pmap JArr (parse_elements f r)
            end
          else if c =? 34 then
            match parse_string_body r with
            | Some (str, rest) => POk (JStr str) rest
            | None => PErr
            end
          else if starts_with (js "null") (c :: r) then POk JNull (drop 4 (c :: r))
          else if starts_with (js "true") (c :: r) then POk (JBool true) (drop 4 (c :: r))
          else if starts_with (js "false") (c :: r) then POk (JBool false) (drop 5 (c :: r))
          else
            match lex_number (c :: r) with
            | Some (lx, rest) => POk (JNum lx) rest
            | None => PErr
            end
      end
  end
with parse_members (fuel : nat) (s : list N) {struct fuel}
  : presult (list (list N * json)) :=
  match fuel with
  | O => PFuel
  | S f =>
      match expect 34 (skip_ws s) with
      | Some r =>
          match parse_string_body r with
          | Some (k, r1) =>
              match expect 58 (skip_ws r1) with
              | Some r2 =>
                  match parse_value f r2 with
                  | POk v r3 =>
                      match skip_ws r3 with
                      | c :: r4 =>
                          if c =? 44 then pmap (cons (k, v)) (parse_members f r4)
                          else if c =? 125 then POk [(k, v)] r4
                          else PErr
                      | [] => PErr
                      end
                  | PErr => PErr
                  | PFuel => PFuel
                  end
              | None => PErr
              end
          | None => PErr
          end
      | None => PErr
      end
  end
with parse_elements (fuel : nat) (s : list N) {struct fuel} : presult (list json) :=
  match fuel with
  | O => PFuel
  | S f =>
      match parse_value f s with
      | POk v r1 =>
          match skip_ws r1 with
          | c :: r2 =>
              if c =? 44 then pmap (cons v) (parse_elements f r2)
              else if c =? 93 then POk [v] r2
              else PErr
          | [] => PErr
          end
      | PErr => PErr
      | PFuel => PFuel
      end
  end.

(** [JSON.parse(text)]: one value, surrounded by optional white space.  The
    fuel bounds the recursion; [JSON_parse_fuel] shows that it is never
    exhausted. *)
Definition JSON_parse (text : list N) : outcome json :=
  match parse_value (2 * length text + 2) text with
  | POk v rest =>
      match skip_ws rest with
      | [] => Ret v
      | _ :: _ => Throw SyntaxError
      end
  | PErr => Throw SyntaxError
  | PFuel => Unmodelled
  end.

(** ** [decodeURIComponent] *)

Definition hex_byte (h1 h2 : N) : option N :=
  match hex_value h1, hex_value h2 with
  | Some x, Some y => Some (16 * x + y)
  | _, _ => None
  end.

(** A percent sign followed by two hexadecimal digits. *)
Definition pct_byte (p h1 h2 : N) : option N :=
  if p =? 37 then hex_byte h1 h2 else None.

Definition is_continuation (b : N) : bool := (128 <=? b) && (b <? 192).

(** The UTF-16 code units of a code point. *)
Definition utf16_encode (cp : N) : list N :=
  if cp <? 65536 then [cp]
  else [55296 + (cp - 65536) / 1024; 56320 + (cp - 65536) mod 1024].

(** A decoded code point is accepted when it is not an overlong form (it is
    at least [lo]), not a surrogate and not above U+10FFFF. *)
Definition utf8_accept (lo cp : N) : option (list N) :=
  if (lo <=? cp) && (cp <=? 1114111) && negb ((55296 <=? cp) && (cp <=? 57343))
  then Some (utf16_encode cp) else None.

Definition utf8_2 (b1 b2 : N) : option (list N) :=
  if is_continuation b2 then utf8_accept 128 ((b1 - 192) * 64 + (b2 - 128))
  else None.

Definition utf8_3 (b1 b2 b3 : N) : option (list N) :=
  if is_continuation b2 && is_continuation b3
  then utf8_accept 2048 ((b1 - 224) * 4096 + (b2 - 128) * 64 + (b3 - 128))
  else None.

Definition utf8_4 (b1 b2 b3 b4 : N) : option (list N) :=
  if is_continuation b2 && is_continuation b3 && is_continuation b4
  then utf8_accept 65536
         ((b1 - 240) * 262144 + (b2 - 128) * 4096 + (b3 - 128) * 64 + (b4 - 128))
  else None.

Definition app_opt (u : option (list N)) (t : option (list N)) : option (list N) :=
  match u, t with
  | Some a, Some b => Some (a ++ b)
  | _, _ => None
  end.

(** [None] stands for the [URIError] the host throws on a malformed escape
    sequence. *)
Fixpoint decodeURIComponent (s : list N) : option (list N) :=
  match s with
  | [] => Some []
  | c :: r =>
      if negb (c =? 37) then app_opt (Some [c]) (decodeURIComponent r)
      else
        match r with
        | h1 :: h2 :: r1 =>
            match hex_byte h1 h2 with
            | None => None
            | Some b =>
                if b <? 128 then app_opt (Some [b]) (decodeURIComponent r1)
                else if b <? 192 then None
                else if b <? 224 then
                  match r1 with
                  | p2 :: x1 :: x2 :: r2 =>
                      match pct_byte p2 x1 x2 with
                      | Some b2 => app_opt (utf8_2 b b2) (decodeURIComponent r2)
                      | None => None
                      end
                  | _ => None
                  end
                else if b <? 240 then
                  match r1 with
                  | p2 :: x1 :: x2 :: p3 :: y1 :: y2 :: r3 =>
                      match pct_byte p2 x1 x2, pct_byte p3 y1 y2 with
                      | Some b2, Some b3 =>
                          app_opt (utf8_3 b b2 b3) (decodeURIComponent r3)
                      | _, _ => None
                      end
                  | _ => None
                  end
                else if b <? 248 then
                  match r1 with
                  | p2 :: x1 :: x2 :: p3 :: y1 :: y2 :: p4 :: z1 :: z2 :: r4 =>
                      match pct_byte p2 x1 x2, pct_byte p3 y1 y2, pct_byte p4 z1 z2 with
                      | Some b2, Some b3, Some b4 =>
                          app_opt (utf8_4 b b2 b3 b4) (decodeURIComponent r4)
                      | _, _, _ => None
                      end
                  | _ => None
                  end
                else None
            end
        | _ => None
        end
  end.

(** ** [Date]: the text of [toUTCString] *)

Definition digit_of (d : Z) : N := 48 + Z.to_N (d mod 10)%Z.

Definition pad2 (n : Z) : list N := [digit_of (n / 10)%Z; digit_of n].

(** A year is printed with at least four digits, after a minus sign when it
    is negative; the years of valid dates have at most six digits. *)
Definition year_digits (y : Z) : list N :=
  let a := Z.abs y in
  (if (a <? 100000)%Z then [] else [digit_of (a / 100000)%Z])
    ++ (if (a <? 10000)%Z then [] else [digit_of (a / 10000)%Z])
    ++ [digit_of (a / 1000)%Z; digit_of (a / 100)%Z; digit_of (a / 10)%Z; digit_of a].

Definition year_string (y : Z) : list N :=
  (if (y <? 0)%Z then [45] else []) ++ year_digits y.

Definition day_names : list string :=
  ["Sun"; "Mon"; "Tue"; "Wed"; "Thu"; "Fri"; "Sat"]%string.

Definition month_names : list string :=
  ["Jan"; "Feb"; "Mar"; "Apr"; "May"; "Jun";
   "Jul"; "Aug"; "Sep"; "Oct"; "Nov"; "Dec"]%string.

Definition name_at (names : list string) (i : Z) : list N :=
  js (nth (Z.to_nat i) names EmptyString).

(** Year, month (0 to 11) and day of the month of a day number counted
    from 1 January 1970, in the proleptic Gregorian calendar. *)
Definition civil_from_days (days : Z) : Z * Z * Z :=
  (let z := days + 719468 in
   let era := z / 146097 in
   let doe := z - era * 146097 in
   let yoe := (doe - doe / 1460 + doe / 36524 - doe / 146096) / 365 in
   let doy := doe - (365 * yoe + yoe / 4 - yoe / 100) in
   let mp := (5 * doy + 2) / 153 in
   let d := doy - (153 * mp + 2) / 5 + 1 in
   let m := if mp <? 10 then mp + 3 else mp - 9 in
   let y := yoe + era * 400 + (if m <=? 2 then 1 else 0) in
   (y, m - 1, d))%Z.

(** [TimeClip]: a time value beyond 8.64e15 milliseconds is [NaN]. *)
Definition TimeClip (t : Z) : option Z :=
  if (Z.abs t <=? 8640000000000000)%Z then Some t else None.

Definition toUTCString (tv : option Z) : list N :=
  match tv with
  | None => js "Invalid Date"
  | Some t =>
      (let days := t / 86400000 in
       let ms := t mod 86400000 in
       let '(y, m, d) := civil_from_days days in
       name_at day_names ((days + 4) mod 7) ++ js ", " ++ pad2 d ++ js " "
         ++ name_at month_names m ++ js " " ++ year_string y ++ js " "
         ++ pad2 (ms / 3600000) ++ js ":" ++ pad2 (ms / 60000 mod 60) ++ js ":"
         ++ pad2 (ms / 1000 mod 60) ++ js " GMT")%Z
  end.

(** ** The cookie jar behind [document.cookie] *)

(** The jar is the host's; it is modelled after the user-agent algorithm of
    RFC 6265, sections 5.2 to 5.4, for one document at path [/].  The list
    is in the order in which [document.cookie] prints the cookies.  The text
    of the [Expires] attribute is recorded, not interpreted: no cookie lapses
    during a modelled run. *)
Record cookie := {
  c_name : list N;
  c_value : list N;
  c_expires : option (list N);
  c_path : list N
}.

Definition is_wsp (c : N) : bool := (c =? 32) || (c =? 9).

Fixpoint trim_left (s : list N) : list N :=
  match s with
  | c :: r => if is_wsp c then trim_left r else s
  | [] => []
  end.

Definition trim (s : list N) : list N := rev (trim_left (rev (trim_left s))).

(** The text before the first [sep], and the text after it if there is one. *)
Fixpoint cut_at (sep : N) (s : list N) : list N * option (list N) :=
  match s with
  | [] => ([], None)
  | c :: r =>
      if c =? sep then ([], Some r)
      else let '(a, b) := cut_at sep r in (c :: a, b)
  end.

Definition lower (c : N) : N := if (65 <=? c) && (c <=? 90) then c + 32 else c.

(** One attribute: its lower-cased name and its value, both trimmed. *)
Definition parse_attribute (av : list N) : list N * list N :=
  let '(n, v) := cut_at 61 av in
  (map lower (trim n), trim (default [] v)).

(** The attributes of a set-cookie string: the segments after its first
    semicolon. *)
Definition cookie_attributes (str : list N) : list (list N * list N) :=
  match snd (cut_at 59 str) with
  | Some r => map parse_attribute (split_on 59 r)
  | None => []
  end.

Definition last_attribute (name : list N) (avs : list (list N * list N))
  : option (list N) :=
  obj_get_own name (rev avs).

(** The path of the cookie: the value of the last [Path] attribute when it
    begins with a slash, else the default path, which is [/] for the
    document. *)
Definition cookie_path (avs : list (list N * list N)) : list N :=
  match last_attribute (js "path") avs with
  | Some (47 :: p) => 47 :: p
  | _ => [47]
  end.

(** The name, value, expiry text and path that a set-cookie string
    describes, if it is not ignored: a string without [=] before its first
    semicolon, or with an empty name, is ignored.  Of two attributes of one
    name the last one counts.  Whether the cookie is stored is decided in
    [set_document_cookie], which looks at the other attributes. *)
Definition parse_set_cookie (str : list N) : option cookie :=
  match cut_at 61 (fst (cut_at 59 str)) with
  | (_, None) => None
  | (n, Some v) =>
      if decide (trim n = []) then None
      else
        let avs := cookie_attributes str in
        Some {| c_name := trim n; c_value := trim v;
                c_expires := last_attribute (js "expires") avs;
                c_path := cookie_path avs |}
  end.

(** The attributes, other than [Expires] and [Path], that user agents act
    on.  What they do with one of them depends on the host name, the scheme
    of the document and the clock ([Max-Age=0] deletes the cookie, a foreign
    [Domain] or [HttpOnly] makes the agent drop the string), none of which
    the model has.  An attribute of any other name is ignored by the
    agent. *)
Definition host_attributes : list (list N) :=
  map js ["max-age"; "domain"; "secure"; "httponly"; "samesite"; "partitioned";
          "priority"]%string.

Definition host_dependent (avs : list (list N * list N)) : bool :=
  existsb (fun av => bool_decide (fst av ∈ host_attributes)) avs.

Definition same_cookie (c d : cookie) : bool :=
  bool_decide (c_name c = c_name d) && bool_decide (c_path c = c_path d).

(** A cookie with the name and path of a stored one takes its place; a new
    one goes behind the cookies whose path is at least as long. *)
Fixpoint jar_store (c : cookie) (jar : list cookie) : list cookie :=
  match jar with
  | [] => [c]
  | d :: r =>
      if same_cookie c d then c :: r
      else if existsb (same_cookie c) r then d :: jar_store c r
      else if (length (c_path d) <? length (c_path c))%nat then c :: d :: r
      else d :: jar_store c r
  end.

(** [document.cookie = str].  [None]: the string carries one of the
    [host_attributes], and what becomes of the jar is outside the model. *)
Definition set_document_cookie (str : list N) (jar : list cookie)
  : option (list cookie) :=
  match parse_set_cookie str with
  | None => Some jar
  | Some c =>
      if host_dependent (cookie_attributes str) then None
      else Some (jar_store c jar)
  end.

(** RFC 6265, 5.1.4: the cookie path [cp] matches the request path [rp] when
    they are identical, or [cp] is a prefix of [rp] that ends in a slash or
    is followed by one in [rp]. *)
Definition path_match (cp rp : list N) : bool :=
  bool_decide (cp = rp)
  || starts_with cp rp
     && (bool_decide (last cp = Some 47)
         || bool_decide (head (drop (length cp) rp) = Some 47)).

(** The path of the document the code runs in. *)
Definition document_path : list N := js "/".

(** The cookies the document sees: those whose path matches its own. *)
Definition visible (c : cookie) : bool := path_match (c_path c) document_path.

Definition visible_cookies (jar : list cookie) : list cookie :=
  filter (fun c => visible c = true) jar.

(** [name=value] pairs joined by [; ]. *)
Fixpoint cookie_text (cs : list cookie) : list N :=
  match cs with
  | [] => []
  | c :: r =>
      c_name c ++ 61 :: c_value c
        ++ match r with [] => [] | _ => 59 :: 32 :: cookie_text r end
  end.

(** The value of [document.cookie]. *)
Definition document_cookie (jar : list cookie) : list N :=
  cookie_text (visible_cookies jar).

(** ** Property access on a parsed object *)

(** What a call hands back: a JSON value ([VJson JNull] is [null],
    [VJson (JStr s)] a string), or a property inherited from
    [Object.prototype], named by its key. *)
Inductive jsval :=
| VJson (j : json)
| VInherited (name : list N).

Definition vnull : jsval := VJson JNull.
Definition vstr (s : list N) : jsval := VJson (JStr s).

(** The properties every ordinary object inherits from [Object.prototype]. *)
Definition object_prototype_keys : list (list N) :=
  map js ["constructor"; "__defineGetter__"; "__defineSetter__"; "hasOwnProperty";
          "__lookupGetter__"; "__lookupSetter__"; "isPrototypeOf";
          "propertyIsEnumerable"; "toString"; "valueOf"; "__proto__";
          "toLocaleString"]%string.

(** [o[k]]; [None] is [undefined]. *)
Definition obj_get (k : list N) (o : list (list N * json)) : option jsval :=
  match obj_get_own k o with
  | Some v => Some (VJson v)
  | None => if bool_decide (k ∈ object_prototype_keys) then Some (VInherited k) else None
  end.

(** [o[k] = v] for a string [v].  The inherited [__proto__] is an accessor
    whose setter ignores a string; every other key becomes an own property. *)
Definition obj_assign (k : list N) (v : list N) (o : list (list N * json))
  : list (list N * json) :=
  if bool_decide (k = js "__proto__") && negb (obj_has_own k o) then o
  else obj_define k (JStr v) o.

(** The integer a string of digits denotes. *)
Definition decimal (ds : list N) : N :=
  fold_left (fun acc c => 10 * acc + (c - 48)) ds 0.

(** The number a lexeme [-? int frac? exp?] denotes is, up to its sign,
    [m * 10 ^ e]: [m] is the integer of its digits before the exponent, [e]
    its exponent less the number of fraction digits. *)
Definition lexeme_parts (lx : list N) : N * Z :=
  let s1 := match expect 45 lx with Some r => r | None => lx end in
  let '(i, s2) := take_digits s1 in
  let '(f, s3) := match expect 46 s2 with
                  | Some r => take_digits r
                  | None => ([], s2)
                  end in
  let e := match s3 with
           | _ :: g :: ds =>
               if g =? 45 then (- Z.of_N (decimal (fst (take_digits ds))))%Z
               else if g =? 43 then Z.of_N (decimal (fst (take_digits ds)))
               else Z.of_N (decimal (fst (take_digits (g :: ds))))
           | _ => 0%Z
           end in
  (decimal (i ++ f), (e - Z.of_nat (length f))%Z).

(** A number is falsy when it is [0] or [-0], that is when the double
    nearest to the number its lexeme denotes is zero: the number is at most
    [2 ^ -1075] in magnitude, half the least positive double (the tie goes
    to the even neighbour, which is zero). *)
Definition zero_lexeme (lx : list N) : bool :=
  let '(m, e) := lexeme_parts lx in
  (m =? 0) || ((e <? 0)%Z && (m * 2 ^ 1075 <=? 10 ^ Z.to_N (- e))).

Definition truthy_json (j : json) : bool :=
  match j with
  | JNull => false
  | JBool b => b
  | JNum lx => negb (zero_lexeme lx)
  | JStr s => negb (bool_decide (s = []))
  | JArr _ => true
  | JObj _ => true
  end.

Definition truthy (v : jsval) : bool :=
  match v with
  | VJson j => truthy_json j
  | VInherited _ => true
  end.

(** [x || null] for a property read [x]. *)
Definition or_null (x : option jsval) : jsval :=
  match x with
  | Some v => if truthy v then v else vnull
  | None => vnull
  end.

(** A [string | null] as a value. *)
Definition of_string_or_null (x : option (list N)) : jsval :=
  match x with
  | Some s => vstr s
  | None => vnull
  end.

(** Truthiness of a [string | null]. *)
Definition truthy_string (x : option (list N)) : bool :=
  match x with
  | Some (_ :: _) => true
  | _ => false
  end.

(** ** The world: every store the code can reach *)

(** The two singleton classes keep their instance in a static field.  An
    instance of [CookieStorage] holds only its cookie name, an instance of
    [MemoryStorage] only its [Map]; every reference to an instance denotes the
    one in the static field, so the statics hold the instances' fields.
    Native stores are unbounded: no write is refused for lack of room. *)
Record world := {
  localStorage : gmap (list N) (list N);
  sessionStorage : gmap (list N) (list N);
  jar : list cookie;
  CookieStorage_storage : option (list N);
  MemoryStorage_storage : option (gmap (list N) (list N))
}.

Definition set_localStorage (m : gmap (list N) (list N)) (w : world) : world :=
  {| localStorage := m; sessionStorage := sessionStorage w; jar := jar w;
     CookieStorage_storage := CookieStorage_storage w;
     MemoryStorage_storage := MemoryStorage_storage w |}.

Definition set_sessionStorage (m : gmap (list N) (list N)) (w : world) : world :=
  {| localStorage := localStorage w; sessionStorage := m; jar := jar w;
     CookieStorage_storage := CookieStorage_storage w;
     MemoryStorage_storage := MemoryStorage_storage w |}.

Definition set_jar (j : list cookie) (w : world) : world :=
  {| localStorage := localStorage w; sessionStorage := sessionStorage w; jar := j;
     CookieStorage_storage := CookieStorage_storage w;
     MemoryStorage_storage := MemoryStorage_storage w |}.

Definition set_CookieStorage_storage (s : option (list N)) (w : world) : world :=
  {| localStorage := localStorage w; sessionStorage := sessionStorage w; jar := jar w;
     CookieStorage_storage := s;
     MemoryStorage_storage := MemoryStorage_storage w |}.

Definition set_MemoryStorage_storage (s : option (gmap (list N) (list N))) (w : world)
  : world :=
  {| localStorage := localStorage w; sessionStorage := sessionStorage w; jar := jar w;
     CookieStorage_storage := CookieStorage_storage w;
     MemoryStorage_storage := s |}.

Definition fresh_world : world :=
  {| localStorage := ∅; sessionStorage := ∅; jar := [];
     CookieStorage_storage := None; MemoryStorage_storage := None |}.

(** ** [class CookieStorage] *)

Module CookieStorage.

(** [new CookieStorage(cookieName)]: the first construction stores the
    instance; every later one returns it and drops its argument. *)
Definition constructor (cookieName : list N) (w : world) : world :=
  match CookieStorage_storage w with
  | Some _ => w
  | None => set_CookieStorage_storage (Some cookieName) w
  end.

Definition seven_days : Z := (7 * 24 * 60 * 60 * 1000)%Z.

(** [getUpdatedTime()], for the clock reading [now] of [new Date()]. *)
Definition getUpdatedTime (now : Z) : list N :=
  toUTCString (TimeClip (now + seven_days)).

(** [while (cookie.charAt(0) == " ") cookie = cookie.substring(1)] *)
Fixpoint drop_spaces (cookie : list N) : list N :=
  match cookie with
  | c :: r => if c =? 32 then drop_spaces r else cookie
  | [] => []
  end.

(** The loop of [getItem] over the segments of the decoded cookie text. *)
Fixpoint find_cookie (name : list N) (cookies : list (list N)) : list N :=
  match cookies with
  | [] => []
  | cookie :: rest =>
      let cookie := drop_spaces cookie in
      if starts_with name cookie then drop (length name) cookie
      else find_cookie name rest
  end.

Definition getItem (STORAGE_NAME : list N) (w : world) : outcome (list N) :=
  let name := STORAGE_NAME ++ js "=" in
  match decodeURIComponent (document_cookie (jar w)) with
  | None => Throw URIError
  | Some decodedCookie => Ret (find_cookie name (split_on 59 decodedCookie))
  end.

Definition cookie_string (STORAGE_NAME json expires : list N) : list N :=
  (STORAGE_NAME ++ js "=" ++ json ++ js ";") ++ expires ++ js ";path=/".

(** The common tail of [setItem] and [removeItem]: serialize and assign
    to [document.cookie].  The call is outside the model when the members are
    not all strings or the jar's answer depends on the host. *)
Definition write (STORAGE_NAME expires : list N) (cookieJson : list (list N * json))
    (w : world) : outcome unit * world :=
  match JSON_stringify cookieJson with
  | Some json =>
      match set_document_cookie (cookie_string STORAGE_NAME json expires) (jar w) with
      | Some jar' => (Ret (), set_jar jar' w)
      | None => (Unmodelled, w)
      end
  | None => (Unmodelled, w)
  end.

Definition setItem (now : Z) (STORAGE_NAME key value : list N) (w : world)
  : outcome unit * world :=
  let expires := js "expires=" ++ getUpdatedTime now in
  match getItem STORAGE_NAME w with
  | Ret [] => write STORAGE_NAME expires (obj_assign key value []) w
  | Ret existingCookie =>
      match JSON_parse existingCookie with
      | Ret (JObj cookieJson) =>
          write STORAGE_NAME expires (obj_assign key value cookieJson) w
      | Ret JNull => (Throw TypeError, w)
      | Ret _ => (Unmodelled, w)
      | Throw e => (Throw e, w)
      | Unmodelled => (Unmodelled, w)
      end
  | Throw e => (Throw e, w)
  | Unmodelled => (Unmodelled, w)
  end.

Definition removeItem (now : Z) (STORAGE_NAME key : list N) (w : world)
  : outcome unit * world :=
  let expires := js "expires=" ++ getUpdatedTime now in
  match getItem STORAGE_NAME w with
  | Ret [] => write STORAGE_NAME expires [] w
  | Ret existingCookie =>
      match JSON_parse existingCookie with
      | Ret (JObj cookieJson) =>
          write STORAGE_NAME expires (obj_delete key cookieJson) w
      | Ret JNull => (Throw TypeError, w)
      | Ret _ => (Unmodelled, w)
      | Throw e => (Throw e, w)
      | Unmodelled => (Unmodelled, w)
      end
  | Throw e => (Throw e, w)
  | Unmodelled => (Unmodelled, w)
  end.

End CookieStorage.

(** ** [class MemoryStorage] *)

Module MemoryStorage.

Definition constructor (w : world) : world :=
  match MemoryStorage_storage w with
  | Some _ => w
  | None => set_MemoryStorage_storage (Some ∅) w
  end.

(** [this.memStorage?.set(key, value)] *)
Definition setItem (key value : list N) (w : world) : world :=
  match MemoryStorage_storage w with
  | Some memStorage => set_MemoryStorage_storage (Some (<[key := value]> memStorage)) w
  | None => w
  end.

Definition getItem (key : list N) (w : world) : option (list N) :=
  match MemoryStorage_storage w with
  | Some memStorage =>
      let value := memStorage !! key in
      if truthy_string value then value else None
  | None => None
  end.

Definition removeItem (key : list N) (w : world) : world :=
  match MemoryStorage_storage w with
  | Some memStorage => set_MemoryStorage_storage (Some (delete key memStorage)) w
  | None => w
  end.

End MemoryStorage.

(** ** [createClientStorage]: the facade *)

(** The object a facade's [storage] variable refers to. *)
Inductive storage_ref :=
| LocalRef      (* the global [localStorage] *)
| SessionRef    (* the global [sessionStorage] *)
| CookieRef     (* the [CookieStorage] singleton *)
| MemoryRef.    (* the [MemoryStorage] singleton *)

(** The closure variables of one facade.  [storageType] holds whatever was
    passed to [setStorage], recognised or not. *)
Record facade := {
  allowedKeys : option (list (list N));
  storageType : list N;
  storage : storage_ref
}.

Definition STORAGE_NAME : list N := js "__react__storage".

Definition createClientStorage (allowedKeys : option (list (list N))) : facade :=
  {| allowedKeys := allowedKeys;
     storageType := js "sessionStorage";
     storage := SessionRef |}.

Definition setStorage (storeName : list N) (f : facade) (w : world) : facade * world :=
  let with_storage r :=
    {| allowedKeys := allowedKeys f; storageType := storeName; storage := r |} in
  if bool_decide (storeName = js "cookieStorage") then
    (with_storage CookieRef, CookieStorage.constructor STORAGE_NAME w)
  else if bool_decide (storeName = js "memoryStorage") then
    (with_storage MemoryRef, MemoryStorage.constructor w)
  else if bool_decide (storeName = js "localStorage") then
    (with_storage LocalRef, w)
  else if bool_decide (storeName = js "sessionStorage") then
    (with_storage SessionRef, w)
  else (with_storage SessionRef, w).

(** *** Calls through the [StorageInterface] reference *)

Definition storage_setItem (now : Z) (r : storage_ref) (key value : list N) (w : world)
  : outcome unit * world :=
  match r with
  | LocalRef => (Ret (), set_localStorage (<[key := value]> (localStorage w)) w)
  | SessionRef => (Ret (), set_sessionStorage (<[key := value]> (sessionStorage w)) w)
  | CookieRef =>
      match CookieStorage_storage w with
      | Some name => CookieStorage.setItem now name key value w
      | None => (Unmodelled, w)
      end
  | MemoryRef => (Ret (), MemoryStorage.setItem key value w)
  end.

(** [CookieStorage.getItem] takes no parameter: the key it is called with
    is dropped. *)
Definition storage_getItem (r : storage_ref) (key : list N) (w : world)
  : outcome (option (list N)) :=
  match r with
  | LocalRef => Ret (localStorage w !! key)
  | SessionRef => Ret (sessionStorage w !! key)
  | CookieRef =>
      match CookieStorage_storage w with
      | Some name =>
          match CookieStorage.getItem name w with
          | Ret s => Ret (Some s)
          | Throw e => Throw e
          | Unmodelled => Unmodelled
          end
      | None => Unmodelled
      end
  | MemoryRef => Ret (MemoryStorage.getItem key w)
  end.

Definition storage_removeItem (now : Z) (r : storage_ref) (key : list N) (w : world)
  : outcome unit * world :=
  match r with
  | LocalRef => (Ret (), set_localStorage (delete key (localStorage w)) w)
  | SessionRef => (Ret (), set_sessionStorage (delete key (sessionStorage w)) w)
  | CookieRef =>
      match CookieStorage_storage w with
      | Some name => CookieStorage.removeItem now name key w
      | None => (Unmodelled, w)
      end
  | MemoryRef => (Ret (), MemoryStorage.removeItem key w)
  end.

(** *** The three operations *)

(** [allowedKeys && !allowedKeys.includes(key)] is false. *)
Definition key_allowed (f : facade) (key : list N) : bool :=
  match allowedKeys f with
  | Some keys => bool_decide (key ∈ keys)
  | None => true
  end.

Definition not_allowed_message (key : list N) : list N :=
  js "Key '" ++ key ++ js "' is not allowed.".

(** [storageType === "memoryStorage" || storageType === "cookieStorage"] *)
Definition direct (f : facade) : bool :=
  bool_decide (storageType f = js "memoryStorage")
  || bool_decide (storageType f = js "cookieStorage").

(** [storage.setItem(STORAGE_NAME, JSON.stringify(o))] *)
Definition store_object (now : Z) (f : facade) (o : list (list N * json)) (w : world)
  : outcome unit * world :=
  match JSON_stringify o with
  | Some text => storage_setItem now (storage f) STORAGE_NAME text w
  | None => (Unmodelled, w)
  end.

Definition setItem (now : Z) (f : facade) (key value : list N) (w : world)
  : outcome unit * world :=
  if negb (key_allowed f key) then (Throw (Error (not_allowed_message key)), w)
  else if direct f then storage_setItem now (storage f) key value w
  else
    match storage_getItem (storage f) STORAGE_NAME w with
    | Ret storeValue =>
        if truthy_string storeValue then
          match JSON_parse (default [] storeValue) with
          | Ret (JObj oldValue) => store_object now f (obj_assign key value oldValue) w
          | Ret JNull => (Throw TypeError, w)
          | Ret _ => (Unmodelled, w)
          | Throw e => (Throw e, w)
          | Unmodelled => (Unmodelled, w)
          end
        else store_object now f (obj_define key (JStr value) []) w
    | Throw e => (Throw e, w)
    | Unmodelled => (Unmodelled, w)
    end.

Definition getItem (f : facade) (key : list N) (w : world) : outcome jsval :=
  if negb (key_allowed f key) then Throw (Error (not_allowed_message key))
  else if direct f then
    match storage_getItem (storage f) key w with
    | Ret x => Ret (of_string_or_null x)
    | Throw e => Throw e
    | Unmodelled => Unmodelled
    end
  else
    match storage_getItem (storage f) STORAGE_NAME w with
    | Ret storageValue =>
        if truthy_string storageValue then
          match JSON_parse (default [] storageValue) with
          | Ret (JObj parsedVAlue) => Ret (or_null (obj_get key parsedVAlue))
          | Ret JNull => Throw TypeError
          | Ret _ => Unmodelled
          | Throw e => Throw e
          | Unmodelled => Unmodelled
          end
        else Ret vnull
    | Throw e => Throw e
    | Unmodelled => Unmodelled
    end.

Definition removeItem (now : Z) (f : facade) (key : list N) (w : world)
  : outcome unit * world :=
  if negb (key_allowed f key) then (Throw (Error (not_allowed_message key)), w)
  else if direct f then storage_removeItem now (storage f) key w
  else
    match storage_getItem (storage f) STORAGE_NAME w with
    | Ret storeValue =>
        if truthy_string storeValue then
          match JSON_parse (default [] storeValue) with
          | Ret (JObj oldValue) => store_object now f (obj_delete key oldValue) w
          | Ret JNull => (Throw TypeError, w)
          | Ret _ => (Unmodelled, w)
          | Throw e => (Throw e, w)
          | Unmodelled => (Unmodelled, w)
          end
        else (Ret (), w)
    | Throw e => (Throw e, w)
    | Unmodelled => (Unmodelled, w)
    end.

(** *** Sequences of calls on one facade *)

Inductive call :=
| CallSet (now : Z) (key value : list N)
| CallGet (key : list N)
| CallRemove (now : Z) (key : list N).

(** What a call answered: a [get] its value, a [set] or [remove] nothing. *)
Definition run_call (f : facade) (c : call) (w : world) : outcome (option jsval) * world :=
  match c with
  | CallSet now k v =>
      match setItem now f k v w with
      | (Ret _, w') => (Ret None, w')
      | (Throw e, w') => (Throw e, w')
      | (Unmodelled, w') => (Unmodelled, w')
      end
  | CallGet k =>
      match getItem f k w with
      | Ret v => (Ret (Some v), w)
      | Throw e => (Throw e, w)
      | Unmodelled => (Unmodelled, w)
      end
  | CallRemove now k =>
      match removeItem now f k w with
      | (Ret _, w') => (Ret None, w')
      | (Throw e, w') => (Throw e, w')
      | (Unmodelled, w') => (Unmodelled, w')
      end
  end.

(** Each call is made by a caller that catches what it throws, so the next
    one runs in the world the previous one left. *)
Fixpoint run_calls (f : facade) (cs : list call) (w : world)
  : list (outcome (option jsval)) * world :=
  match cs with
  | [] => ([], w)
  | c :: rest =>
      let '(r, w1) := run_call f c w in
      let '(rs, w2) := run_calls f rest w1 in
      (r :: rs, w2)
  end.

(** ** Predicates used in the statements *)

Definition recognized_kinds : list (list N) :=
  map js ["localStorage"; "sessionStorage"; "memoryStorage"; "cookieStorage"]%string.

Definition is_string (j : json) : Prop :=
  match j with JStr _ => True | _ => False end.

(** Every member of the object is a string, as in every object the facade
    itself serializes. *)
Definition all_strings (o : list (list N * json)) : Prop :=
  Forall (fun kv => is_string (snd kv)) o.

(** The entry under [STORAGE_NAME] of a native store is absent, empty, or
    the text of an object of strings. *)
Definition root_ok (store : gmap (list N) (list N)) : Prop :=
  match store !! STORAGE_NAME with
  | None => True
  | Some text =>
      text = [] ∨ ∃ o, JSON_parse text = Ret (JObj o) ∧ all_strings o
  end.

(** The references to the two native stores. *)
Definition native (r : storage_ref) : Prop := r = LocalRef ∨ r = SessionRef.

(** The native store a reference denotes, for the two native references. *)
Definition native_store (r : storage_ref) (w : world) : gmap (list N) (list N) :=
  match r with
  | LocalRef => localStorage w
  | _ => sessionStorage w
  end.

(** A facade that selected the cookie backend, in a world where the
    singleton was built by [setStorage]. *)
Definition on_cookie (f : facade) (w : world) : Prop :=
  storageType f = js "cookieStorage" ∧ storage f = CookieRef
  ∧ CookieStorage_storage w = Some STORAGE_NAME.

(** A cookie as the jar stores it: a name without [=], and neither name nor
    value holds a semicolon, a percent sign or a leading space. *)
Definition plain_text (s : list N) : Prop :=
  Forall (fun c => c ≠ 59 ∧ c ≠ 37) s.

Definition plain_cookie (c : cookie) : Prop :=
  plain_text (c_name c) ∧ plain_text (c_value c)
  ∧ Forall (fun u => u ≠ 61) (c_name c)
  ∧ c_name c ≠ [] ∧ head (c_name c) ≠ Some 32.

Definition cookie_named (name : list N) (c : cookie) : bool :=
  bool_decide (c_name c = name).

(** The value of the first cookie of that name, or the empty string. *)
Definition jar_value (name : list N) (jar : list cookie) : list N :=
  match find (cookie_named name) jar with
  | Some c => c_value c
  | None => []
  end.

(** The units a date text is made of: no semicolon and no equals sign. *)
Definition date_unit (c : N) : Prop := c ≠ 59 ∧ c ≠ 61.

(** The text ends in a unit that is not white space. *)
Definition ends_solid (s : list N) : Prop := ∃ r e, s = r ++ [e] ∧ is_wsp e = false.

(** The cookie the jar holds after the code wrote the JSON [text] at clock
    reading [now], when the jar keeps the text whole. *)
Definition written_cookie (now : Z) (text : list N) : cookie :=
  {| c_name := STORAGE_NAME;
     c_value := text;
     c_expires := Some (toUTCString (TimeClip (now + 7 * 24 * 60 * 60 * 1000)));
     c_path := js "/" |}.

(** The map [CookieStorage.setItem] starts from: the empty object when the
    cookie is absent or empty, else the object its value parses to. *)
Definition cookie_map (w : world) (o : list (list N * json)) : Prop :=
  (CookieStorage.getItem STORAGE_NAME w = Ret [] ∧ o = [])
  ∨ (∃ s, s ≠ [] ∧ CookieStorage.getItem STORAGE_NAME w = Ret s
          ∧ JSON_parse s = Ret (JObj o) ∧ all_strings o).


(** An outcome that is a return or the error of the allow-list gate. *)
Definition returns_or_refuses {A : Type} (r : outcome A) : Prop :=
  (∃ a, r = Ret a) ∨ (∃ key, r = Throw (Error (not_allowed_message key))).

(** A failure of the host: anything but an [Error]. *)
Definition not_Error (e : js_error) : Prop :=
  match e with Error _ => False | _ => True end.

(** A facade bound to a native store, whose calls take the JSON path. *)
Definition on_native (f : facade) : Prop := native (storage f) ∧ direct f = false.

(** Every cookie of the jar called [STORAGE_NAME] is at path [/], where the
    code writes it. *)
Definition own_cookie_at_root (jar : list cookie) : Prop :=
  Forall (fun c => c_name c = STORAGE_NAME → c_path c = js "/") jar.

(** The units [QuoteJSONString] adds to a string: backslash, double quote,
    digits and the letters from [a] to [u]. *)
Definition escape_unit (c : N) : Prop :=
  c = 92 ∨ c = 34 ∨ 48 ≤ c ≤ 57 ∨ 97 ≤ c ≤ 117.

(** * Properties *)

(** A string literal is not among the listed ones. *)
Ltac not_in_list :=
  cbv [recognized_kinds map];
  repeat (apply not_elem_of_cons; split;
          [let H := fresh in intros H; vm_compute in H; discriminate H|]);
  apply not_elem_of_nil.

(** ** The allow-list gate *)

Lemma key_allowed_false f keys k :
  allowedKeys f = Some keys → k ∉ keys → key_allowed f k = false.
Proof.
  intros Hk Hn. unfold key_allowed. rewrite Hk.
  by apply bool_decide_eq_false.
Qed.

(** C1. With an allow-list configured, a key outside it makes [setItem],
    [getItem] and [removeItem] throw the error whose message is
    [Key '<key>' is not allowed.], whatever backend the facade has selected. *)
Theorem disallowed_key_raises now (f : facade) keys (k v : list N) (w : world) :
  allowedKeys f = Some keys → k ∉ keys →
  let e := Error (js "Key '" ++ k ++ js "' is not allowed.") in
  fst (setItem now f k v w) = Throw e
  ∧ getItem f k w = Throw e
  ∧ fst (removeItem now f k w) = Throw e.
Proof.
  intros Hk Hn e. unfold setItem, getItem, removeItem.
  rewrite (key_allowed_false _ _ _ Hk Hn). done.
Qed.

Lemma disallowed_key_raises_witness :
  let f := fst (setStorage (js "localStorage")
                  (createClientStorage (Some [js "name"; js "age"])) fresh_world) in
  let e := Error (js "Key 'role' is not allowed.") in
  fst (setItem 0 f (js "role") (js "Admin") fresh_world) = Throw e
  ∧ getItem f (js "role") fresh_world = Throw e
  ∧ fst (removeItem 0 f (js "role") fresh_world) = Throw e.
Proof.
  apply (disallowed_key_raises 0 _ [js "name"; js "age"] (js "role")).
  - reflexivity.
  - not_in_list.
Defined.

(** C10. A call refused by the allow-list leaves the world as it found it,
    and its outcome is the same in every world: nothing is read, nothing is
    written. *)
Theorem disallowed_key_no_access now (f : facade) keys (k v : list N) (w w' : world) :
  allowedKeys f = Some keys → k ∉ keys →
  snd (setItem now f k v w) = w
  ∧ snd (removeItem now f k w) = w
  ∧ fst (setItem now f k v w) = fst (setItem now f k v w')
  ∧ getItem f k w = getItem f k w'
  ∧ fst (removeItem now f k w) = fst (removeItem now f k w').
Proof.
  intros Hk Hn. unfold setItem, getItem, removeItem.
  rewrite (key_allowed_false _ _ _ Hk Hn). done.
Qed.

Lemma disallowed_key_no_access_witness :
  let f := createClientStorage (Some [js "name"]) in
  let w := fresh_world in
  let w' := set_localStorage {[ STORAGE_NAME := jsq "{'role':'x'}" ]} fresh_world in
  snd (setItem 0 f (js "role") (js "Admin") w) = w
  ∧ snd (removeItem 0 f (js "role") w) = w
  ∧ fst (setItem 0 f (js "role") (js "Admin") w) = fst (setItem 0 f (js "role") (js "Admin") w')
  ∧ getItem f (js "role") w = getItem f (js "role") w'
  ∧ fst (removeItem 0 f (js "role") w) = fst (removeItem 0 f (js "role") w').
Proof.
  apply (disallowed_key_no_access 0 _ [js "name"] (js "role")).
  - reflexivity.
  - not_in_list.
Defined.

(** ** Backend selection *)

Lemma setStorage_default kind f w :
  kind ≠ js "cookieStorage" → kind ≠ js "memoryStorage" → kind ≠ js "localStorage" →
  setStorage kind f w
  = ({| allowedKeys := allowedKeys f; storageType := kind; storage := SessionRef |}, w).
Proof.
  intros H1 H2 H3. unfold setStorage.
  rewrite (bool_decide_eq_false_2 _ H1), (bool_decide_eq_false_2 _ H2),
    (bool_decide_eq_false_2 _ H3).
  by case_bool_decide.
Qed.

(** The three operations look at a facade only through its allow-list, its
    reference and the test [direct]. *)
Lemma run_call_ext f1 f2 c w :
  allowedKeys f1 = allowedKeys f2 → storage f1 = storage f2 → direct f1 = direct f2 →
  run_call f1 c w = run_call f2 c w.
Proof.
  intros Ha Hs Hd.
  destruct c; simpl; unfold setItem, getItem, removeItem, store_object, key_allowed;
    by rewrite Ha, Hs, Hd.
Qed.

Lemma run_calls_ext f1 f2 cs w :
  allowedKeys f1 = allowedKeys f2 → storage f1 = storage f2 → direct f1 = direct f2 →
  run_calls f1 cs w = run_calls f2 cs w.
Proof.
  intros Ha Hs Hd. revert w.
  induction cs as [|c cs IH]; intros w; simpl; [done|].
  rewrite (run_call_ext f1 f2 c w Ha Hs Hd).
  destruct (run_call f2 c w) as [r w1]. by rewrite IH.
Qed.

(** C6. [setStorage] with a value outside the four kinds has no failing
    path; it leaves the world alone, binds the facade to [sessionStorage], and
    every later sequence of [setItem], [getItem] and [removeItem] calls
    answers and acts as it does after [setStorage("sessionStorage")]. *)
Theorem unrecognized_kind_is_session (kind : list N) (f : facade) (w : world)
    (cs : list call) :
  kind ∉ recognized_kinds →
  let '(f1, w1) := setStorage kind f w in
  let '(f2, w2) := setStorage (js "sessionStorage") f w in
  w1 = w ∧ w2 = w ∧ storage f1 = SessionRef ∧ storage f2 = SessionRef
  ∧ run_calls f1 cs w1 = run_calls f2 cs w2.
Proof.
  intros Hk.
  assert (kind ≠ js "localStorage" ∧ kind ≠ js "sessionStorage"
          ∧ kind ≠ js "memoryStorage" ∧ kind ≠ js "cookieStorage") as (Hl & Hs & Hm & Hc).
  { unfold recognized_kinds in Hk. simpl in Hk.
    rewrite !not_elem_of_cons in Hk. tauto. }
  rewrite (setStorage_default kind f w Hc Hm Hl).
  rewrite (setStorage_default (js "sessionStorage") f w) by done.
  repeat split.
  apply run_calls_ext; [done|done|].
  unfold direct; simpl.
  rewrite (bool_decide_eq_false_2 _ Hm), (bool_decide_eq_false_2 _ Hc). done.
Qed.

Lemma unrecognized_kind_is_session_witness :
  let cs := [CallSet 0 (js "a") (js "1"); CallGet (js "a"); CallRemove 5 (js "a");
             CallGet (js "a")] in
  let '(f1, w1) := setStorage (js "indexedDB") (createClientStorage None) fresh_world in
  let '(f2, w2) := setStorage (js "sessionStorage") (createClientStorage None) fresh_world in
  w1 = fresh_world ∧ w2 = fresh_world ∧ storage f1 = SessionRef ∧ storage f2 = SessionRef
  ∧ run_calls f1 cs w1 = run_calls f2 cs w2.
Proof.
  apply (unrecognized_kind_is_session (js "indexedDB") (createClientStorage None)
           fresh_world).
  not_in_list.
Defined.

Lemma setStorage_memory f w :
  setStorage (js "memoryStorage") f w
  = ({| allowedKeys := allowedKeys f; storageType := js "memoryStorage";
        storage := MemoryRef |}, MemoryStorage.constructor w).
Proof. reflexivity. Qed.

Lemma setStorage_cookie f w :
  setStorage (js "cookieStorage") f w
  = ({| allowedKeys := allowedKeys f; storageType := js "cookieStorage";
        storage := CookieRef |}, CookieStorage.constructor STORAGE_NAME w).
Proof. reflexivity. Qed.

Lemma setStorage_local f w :
  setStorage (js "localStorage") f w
  = ({| allowedKeys := allowedKeys f; storageType := js "localStorage";
        storage := LocalRef |}, w).
Proof. reflexivity. Qed.

Lemma setStorage_session f w :
  setStorage (js "sessionStorage") f w
  = ({| allowedKeys := allowedKeys f; storageType := js "sessionStorage";
        storage := SessionRef |}, w).
Proof. reflexivity. Qed.

(** ** Isolation of the backends *)

Lemma set_sessionStorage_same w : set_sessionStorage (sessionStorage w) w = w.
Proof. by destruct w. Qed.

(** A write through a facade bound to [sessionStorage] changes at most the
    session store. *)
Lemma setItem_session_frame now f k v w :
  storage f = SessionRef → direct f = false →
  ∃ m, snd (setItem now f k v w) = set_sessionStorage m w.
Proof.
  intros Hs Hd. unfold setItem, store_object. rewrite Hs, Hd. simpl.
  assert (∃ m, w = set_sessionStorage m w) as Hw
    by (exists (sessionStorage w); by rewrite set_sessionStorage_same).
  repeat case_match; simpl; eauto.
Qed.

Lemma CookieStorage_getItem_session name m w :
  CookieStorage.getItem name (set_sessionStorage m w) = CookieStorage.getItem name w.
Proof. reflexivity. Qed.

(** A facade bound to another store does not see the session store. *)
Lemma getItem_session_irrelevant f k m w :
  storage f ≠ SessionRef → getItem f k (set_sessionStorage m w) = getItem f k w.
Proof.
  intros Hs. unfold getItem, storage_getItem.
  destruct (storage f); try done; simpl; by rewrite ?CookieStorage_getItem_session.
Qed.

Lemma setStorage_set_sessionStorage kind f m w :
  setStorage kind f (set_sessionStorage m w)
  = (fst (setStorage kind f w), set_sessionStorage m (snd (setStorage kind f w))).
Proof.
  unfold setStorage, CookieStorage.constructor, MemoryStorage.constructor.
  repeat case_bool_decide; simpl; try done; by case_match.
Qed.

(** C7, as amended.  A write under the session backend leaves the local
    store, the memory store and the cookie jar as they were, and after a
    switch to one of those backends [getItem] answers what it would have
    answered had the session write not happened. *)
Theorem session_write_frame now (f : facade) (k v : list N) (w : world)
    (target : list N) :
  target ∈ map js ["localStorage"; "memoryStorage"; "cookieStorage"]%string →
  let '(fs, w0) := setStorage (js "sessionStorage") f w in
  let w1 := snd (setItem now fs k v w0) in
  let '(ft, w2) := setStorage target fs w1 in
  let '(ft0, w20) := setStorage target fs w0 in
  localStorage w1 = localStorage w0
  ∧ jar w1 = jar w0
  ∧ MemoryStorage_storage w1 = MemoryStorage_storage w0
  ∧ getItem ft k w2 = getItem ft0 k w20.
Proof.
  intros Ht. rewrite setStorage_session.
  set (fs := {| allowedKeys := allowedKeys f; storageType := js "sessionStorage";
                storage := SessionRef |}).
  destruct (setItem_session_frame now fs k v w eq_refl eq_refl) as [m Hm].
  cbv zeta. rewrite Hm, setStorage_set_sessionStorage.
  destruct (setStorage target fs w) as [ft w2] eqn:Hset. simpl.
  repeat split. apply getItem_session_irrelevant.
  simpl in Ht. rewrite !elem_of_cons in Ht.
  destruct Ht as [->|[->|[->|Ht]]]; [| | |by apply elem_of_nil in Ht].
  - rewrite setStorage_local in Hset. by inversion Hset.
  - rewrite setStorage_memory in Hset. by inversion Hset.
  - rewrite setStorage_cookie in Hset. by inversion Hset.
Qed.

Lemma session_write_frame_witness :
  let '(fs, w0) := setStorage (js "sessionStorage") (createClientStorage None) fresh_world in
  let w1 := snd (setItem 0 fs (js "a") (js "1") w0) in
  let '(ft, w2) := setStorage (js "cookieStorage") fs w1 in
  let '(ft0, w20) := setStorage (js "cookieStorage") fs w0 in
  localStorage w1 = localStorage w0
  ∧ jar w1 = jar w0
  ∧ MemoryStorage_storage w1 = MemoryStorage_storage w0
  ∧ getItem ft (js "a") w2 = getItem ft0 (js "a") w20.
Proof.
  apply (session_write_frame 0 (createClientStorage None) (js "a") (js "1") fresh_world
           (js "cookieStorage")).
  simpl. rewrite !elem_of_cons. right. right. left. reflexivity.
Defined.

(** C7 as stated fails: a value stored earlier under [localStorage] is
    returned after the same key and value are written under
    [sessionStorage] and the facade is switched back. *)
Lemma session_write_isolation_counterexample :
  let '(fl, w0) := setStorage (js "localStorage") (createClientStorage None) fresh_world in
  let w1 := snd (setItem 0 fl (js "a") (js "1") w0) in
  let '(fs, w2) := setStorage (js "sessionStorage") fl w1 in
  let w3 := snd (setItem 0 fs (js "a") (js "1") w2) in
  let '(ft, w4) := setStorage (js "localStorage") fs w3 in
  getItem ft (js "a") w4 = Ret (vstr (js "1")).
Proof. vm_compute. reflexivity. Qed.

(** ** The memory singleton *)

Lemma MemoryStorage_constructor_reuse w :
  MemoryStorage.constructor (MemoryStorage.constructor w) = MemoryStorage.constructor w.
Proof.
  unfold MemoryStorage.constructor.
  destruct (MemoryStorage_storage w) eqn:E; simpl; by rewrite ?E.
Qed.

Lemma MemoryStorage_constructed w :
  ∃ m, MemoryStorage_storage (MemoryStorage.constructor w) = Some m.
Proof. unfold MemoryStorage.constructor. destruct (MemoryStorage_storage w) eqn:E; simpl; eauto. Qed.

Lemma MemoryStorage_get_set k v w m :
  MemoryStorage_storage w = Some m →
  MemoryStorage.getItem k (MemoryStorage.setItem k v w)
  = if decide (v = []) then None else Some v.
Proof.
  intros Hm. unfold MemoryStorage.getItem, MemoryStorage.setItem. rewrite Hm. simpl.
  rewrite lookup_insert_eq. by destruct v.
Qed.

Lemma MemoryStorage_constructor_id w m :
  MemoryStorage_storage w = Some m → MemoryStorage.constructor w = w.
Proof. intros Hm. unfold MemoryStorage.constructor. by rewrite Hm. Qed.

(** C8. Two facades built independently that both select the memory
    backend hold the same instance.  The construction made for the second
    facade returns the instance of the first and changes nothing, whether it
    comes before or after the write; a value written through either facade
    is what [getItem] answers on the other, and on the writer (an empty
    string, being falsy, reads as [null] on both). *)
Theorem memory_singleton_shared now (a1 a2 : option (list (list N))) (k v : list N)
    (w : world) :
  key_allowed (createClientStorage a1) k = true →
  key_allowed (createClientStorage a2) k = true →
  let answer := Ret (if decide (v = []) then vnull else vstr v) in
  let '(f1, w1) := setStorage (js "memoryStorage") (createClientStorage a1) w in
  (let '(f2, w2) := setStorage (js "memoryStorage") (createClientStorage a2) w1 in
   w2 = w1
   ∧ (let '(r, w3) := setItem now f1 k v w2 in
      r = Ret () ∧ getItem f2 k w3 = getItem f1 k w3 ∧ getItem f2 k w3 = answer)
   ∧ (let '(r, w3) := setItem now f2 k v w2 in
      r = Ret () ∧ getItem f1 k w3 = getItem f2 k w3 ∧ getItem f1 k w3 = answer))
  ∧ (let '(r, w2) := setItem now f1 k v w1 in
     let '(f2, w3) := setStorage (js "memoryStorage") (createClientStorage a2) w2 in
     r = Ret () ∧ w3 = w2
     ∧ getItem f2 k w3 = getItem f1 k w3 ∧ getItem f2 k w3 = answer).
Proof.
  intros H1 H2 answer. subst answer. rewrite !setStorage_memory.
  destruct (MemoryStorage_constructed w) as [m Hm].
  unfold key_allowed in H1, H2. simpl in H1, H2.
  split.
  - rewrite MemoryStorage_constructor_reuse. split; [done|].
    unfold setItem, getItem, key_allowed. simpl. rewrite H1, H2. simpl.
    rewrite (MemoryStorage_get_set k v _ m Hm).
    by destruct (decide (v = [])).
  - unfold setItem, key_allowed. simpl. rewrite H1. simpl.
    rewrite ?setStorage_memory.
    assert (MemoryStorage.constructor (MemoryStorage.setItem k v (MemoryStorage.constructor w))
            = MemoryStorage.setItem k v (MemoryStorage.constructor w)) as ->.
    { apply (MemoryStorage_constructor_id _ (<[k := v]> m)).
      unfold MemoryStorage.setItem. by rewrite Hm. }
    unfold getItem, key_allowed. simpl. rewrite H1, H2. simpl.
    rewrite (MemoryStorage_get_set k v _ m Hm).
    by destruct (decide (v = [])).
Qed.

Lemma memory_singleton_shared_witness :
  let answer := Ret (vstr (js "Alice")) in
  let '(f1, w1) := setStorage (js "memoryStorage") (createClientStorage None) fresh_world in
  (let '(f2, w2) := setStorage (js "memoryStorage")
                      (createClientStorage (Some [js "name"])) w1 in
   w2 = w1
   ∧ (let '(r, w3) := setItem 0 f1 (js "name") (js "Alice") w2 in
      r = Ret () ∧ getItem f2 (js "name") w3 = getItem f1 (js "name") w3
      ∧ getItem f2 (js "name") w3 = answer)
   ∧ (let '(r, w3) := setItem 0 f2 (js "name") (js "Alice") w2 in
      r = Ret () ∧ getItem f1 (js "name") w3 = getItem f2 (js "name") w3
      ∧ getItem f1 (js "name") w3 = answer))
  ∧ (let '(r, w2) := setItem 0 f1 (js "name") (js "Alice") w1 in
     let '(f2, w3) := setStorage (js "memoryStorage")
                        (createClientStorage (Some [js "name"])) w2 in
     r = Ret () ∧ w3 = w2
     ∧ getItem f2 (js "name") w3 = getItem f1 (js "name") w3
     ∧ getItem f2 (js "name") w3 = answer).
Proof.
  apply (memory_singleton_shared 0 None (Some [js "name"]) (js "name") (js "Alice")
           fresh_world); reflexivity.
Defined.

(** ** The fuel of [JSON_parse] is never exhausted *)

Lemma skip_ws_length s : (length (skip_ws s) ≤ length s)%nat.
Proof.
  induction s as [|c r IH]; simpl; [lia|]. destruct (is_ws c); simpl; lia.
Qed.

Lemma expect_length c s r : expect c s = Some r → length s = S (length r).
Proof.
  destruct s as [|x s']; simpl; [done|]. destruct (x =? c); [|done].
  by intros [= ->].
Qed.

Lemma cons_fst_Some {A B} (a : A) (p : option (list A * B)) l b :
  cons_fst a p = Some (l, b) → ∃ l', p = Some (l', b).
Proof. destruct p as [[l' b']|]; simpl; [|done]. intros [= <- <-]. eauto. Qed.

Lemma parse_string_body_length n : ∀ s x rest,
  (length s ≤ n)%nat →
  parse_string_body s = Some (x, rest) → (length rest < length s)%nat.
Proof.
  induction n as [|n IH]; intros s x rest Hn; destruct s as [|c r]; simpl in *; try done;
    try lia.
  assert (∀ t y, (length t ≤ length r)%nat → cons_fst y (parse_string_body t) = Some (x, rest) →
                 (length rest < S (length r))%nat) as Hrec.
  { intros t y Ht [l' Hl]%cons_fst_Some. apply IH in Hl; lia. }
  destruct (c =? 34); [intros [= _ ->]; lia|].
  destruct (c =? 92); [|destruct (c <? 32); [done|by apply Hrec]].
  destruct r as [|e r1]; [done|].
  destruct (e =? 117).
  - destruct r1 as [|h1 [|h2 [|h3 [|h4 r2]]]]; try done.
    destruct (hex4_value h1 h2 h3 h4); [|done]. apply Hrec. simpl. lia.
  - destruct (unescape e); [|done]. apply Hrec. simpl. lia.
Qed.

Lemma take_digits_length s :
  (length (snd (take_digits s)) + length (fst (take_digits s)) = length s)%nat.
Proof.
  induction s as [|c r IH]; simpl; [done|].
  destruct (is_digit c); [|simpl; lia].
  destruct (take_digits r) as [d t]. simpl in *. lia.
Qed.

Lemma lex_digits1_length s d t :
  lex_digits1 s = Some (d, t) → (length t < length s)%nat.
Proof.
  unfold lex_digits1. pose proof (take_digits_length s) as H.
  destruct (take_digits s) as [[|x d'] t']; [done|].
  intros [= <- <-]. simpl in H. lia.
Qed.

Lemma lex_int_length s d t : lex_int s = Some (d, t) → (length t < length s)%nat.
Proof.
  unfold lex_int. destruct (expect 48 s) as [r|] eqn:E.
  - intros [= <- <-]. apply expect_length in E. lia.
  - apply lex_digits1_length.
Qed.

Lemma lex_frac_length s d t : lex_frac s = Some (d, t) → (length t ≤ length s)%nat.
Proof.
  unfold lex_frac. destruct (expect 46 s) as [r|] eqn:E.
  - apply expect_length in E. destruct (lex_digits1 r) as [[d' t']|] eqn:E2; [|done].
    apply lex_digits1_length in E2. intros [= <- <-]. lia.
  - by intros [= <- <-].
Qed.

Lemma lex_exp_length s d t : lex_exp s = Some (d, t) → (length t ≤ length s)%nat.
Proof.
  unfold lex_exp. destruct s as [|e r]; [by intros [= <- <-]|].
  destruct ((e =? 101) || (e =? 69)); [|by intros [= <- <-]].
  assert (∀ r1, (length r1 ≤ length r)%nat →
                match lex_digits1 r1 with
                | Some (d0, t0) => Some (e :: [] ++ d0, t0)
                | None => None
                end = Some (d, t) → (length t ≤ length (e :: r))%nat) as Hplain.
  { intros r1 Hr1. destruct (lex_digits1 r1) as [[d' t']|] eqn:E; [|done].
    apply lex_digits1_length in E. intros [= <- <-]. simpl. lia. }
  destruct r as [|g r']; [by apply Hplain|].
  destruct ((g =? 43) || (g =? 45)); [|by apply Hplain].
  destruct (lex_digits1 r') as [[d' t']|] eqn:E; [|done].
  apply lex_digits1_length in E. intros [= <- <-]. simpl. lia.
Qed.

Lemma lex_number_length s lx t :
  lex_number s = Some (lx, t) → (length t < length s)%nat.
Proof.
  unfold lex_number.
  assert (∀ sign s1, (length s1 ≤ length s)%nat →
            match lex_int s1 with
            | Some (i, s2) =>
                match lex_frac s2 with
                | Some (f, s3) =>
                    match lex_exp s3 with
                    | Some (e, s4) => Some (sign ++ i ++ f ++ e, s4)
                    | None => None
                    end
                | None => None
                end
            | None => None
            end = Some (lx, t) → (length t < length s)%nat) as Hgo.
  { intros sign s1 Hs1.
    destruct (lex_int s1) as [[i s2]|] eqn:E1; [|done]. apply lex_int_length in E1.
    destruct (lex_frac s2) as [[f s3]|] eqn:E2; [|done]. apply lex_frac_length in E2.
    destruct (lex_exp s3) as [[e s4]|] eqn:E3; [|done]. apply lex_exp_length in E3.
    intros [= <- <-]. lia. }
  destruct (expect 45 s) as [r|] eqn:E.
  - apply expect_length in E. apply Hgo. lia.
  - by apply Hgo.
Qed.

Lemma pmap_POk {A B} (g : A → B) p b rest :
  pmap g p = POk b rest → ∃ a, p = POk a rest.
Proof. destruct p; simpl; [|done|done]. intros [= <- <-]. eauto. Qed.

Lemma pmap_PFuel {A B} (g : A → B) p : pmap g p = PFuel → p = PFuel.
Proof. by destruct p. Qed.

(** Every successful parse consumes input. *)
Lemma parse_progress f :
  (∀ s v rest, parse_value f s = POk v rest → (length rest < length s)%nat)
  ∧ (∀ s ms rest, parse_members f s = POk ms rest → (length rest < length s)%nat)
  ∧ (∀ s es rest, parse_elements f s = POk es rest → (length rest < length s)%nat).
Proof.
  induction f as [|f (IHv & IHm & IHe)]; [done|].
  split; [|split]; intros s x rest; cbn [parse_value parse_members parse_elements].
  - pose proof (skip_ws_length s) as Hs.
    destruct (skip_ws s) as [|c r]; [done|]. simpl in Hs.
    pose proof (skip_ws_length r) as Hr.
    destruct (c =? 123).
    { destruct (expect 125 (skip_ws r)) as [r'|] eqn:E.
      - apply expect_length in E. intros [= _ <-]. lia.
      - intros [ms Hm%IHm]%pmap_POk. lia. }
    destruct (c =? 91).
    { destruct (expect 93 (skip_ws r)) as [r'|] eqn:E.
      - apply expect_length in E. intros [= _ <-]. lia.
      - intros [es He%IHe]%pmap_POk. lia. }
    destruct (c =? 34).
    { destruct (parse_string_body r) as [[str rest']|] eqn:E; [|done].
      apply (parse_string_body_length (length r)) in E; [|done].
      intros [= _ <-]. lia. }
    repeat (case_match; [intros [= _ <-]; rewrite length_drop; simpl; lia|]).
    destruct (lex_number (c :: r)) as [[lx rest']|] eqn:E; [|done].
    apply lex_number_length in E. intros [= _ <-]. simpl in E. lia.
  - pose proof (skip_ws_length s) as Hs.
    destruct (expect 34 (skip_ws s)) as [r|] eqn:E1; [|done]. apply expect_length in E1.
    destruct (parse_string_body r) as [[k r1]|] eqn:E2; [|done].
    apply (parse_string_body_length (length r)) in E2; [|done].
    pose proof (skip_ws_length r1) as Hr1.
    destruct (expect 58 (skip_ws r1)) as [r2|] eqn:E3; [|done]. apply expect_length in E3.
    destruct (parse_value f r2) as [v r3| |] eqn:E4; [|done|done]. apply IHv in E4.
    pose proof (skip_ws_length r3) as Hr3.
    destruct (skip_ws r3) as [|c r4]; [done|]. simpl in Hr3.
    destruct (c =? 44); [intros [ms Hm%IHm]%pmap_POk; lia|].
    destruct (c =? 125); [|done]. intros [= _ <-]. lia.
  - destruct (parse_value f s) as [v r1| |] eqn:E1; [|done|done]. apply IHv in E1.
    pose proof (skip_ws_length r1) as Hr1.
    destruct (skip_ws r1) as [|c r2]; [done|]. simpl in Hr1.
    destruct (c =? 44); [intros [es He%IHe]%pmap_POk; lia|].
    destruct (c =? 93); [|done]. intros [= _ <-]. lia.
Qed.

(** Twice the length of the input, and a little, is fuel enough. *)
Lemma parse_fuel f :
  (∀ s, (2 * length s + 1 ≤ f)%nat → parse_value f s ≠ PFuel)
  ∧ (∀ s, (2 * length s + 1 ≤ f)%nat → parse_members f s ≠ PFuel)
  ∧ (∀ s, (2 * length s + 2 ≤ f)%nat → parse_elements f s ≠ PFuel).
Proof.
  induction f as [|f (IHv & IHm & IHe)]; [repeat split; intros; lia|].
  split; [|split]; intros s Hf; cbn [parse_value parse_members parse_elements].
  - pose proof (skip_ws_length s) as Hs.
    destruct (skip_ws s) as [|c r]; [done|]. simpl in Hs.
    destruct (c =? 123).
    { destruct (expect 125 (skip_ws r)); [done|].
      intros H%pmap_PFuel. revert H. apply IHm. lia. }
    destruct (c =? 91).
    { destruct (expect 93 (skip_ws r)); [done|].
      intros H%pmap_PFuel. revert H. apply IHe. lia. }
    repeat case_match; done.
  - pose proof (skip_ws_length s) as Hs.
    destruct (expect 34 (skip_ws s)) as [r|] eqn:E1; [|done]. apply expect_length in E1.
    destruct (parse_string_body r) as [[k r1]|] eqn:E2; [|done].
    apply (parse_string_body_length (length r)) in E2; [|done].
    pose proof (skip_ws_length r1) as Hr1.
    destruct (expect 58 (skip_ws r1)) as [r2|] eqn:E3; [|done]. apply expect_length in E3.
    destruct (parse_value f r2) as [v r3| |] eqn:E4; [|done|].
    + apply (proj1 (parse_progress f)) in E4.
      pose proof (skip_ws_length r3) as Hr3.
      destruct (skip_ws r3) as [|c r4]; [done|]. simpl in Hr3.
      destruct (c =? 44); [|by destruct (c =? 125)].
      intros H%pmap_PFuel. revert H. apply IHm. lia.
    + exfalso. revert E4. apply IHv. lia.
  - destruct (parse_value f s) as [v r1| |] eqn:E1; [|done|].
    + apply (proj1 (parse_progress f)) in E1.
      pose proof (skip_ws_length r1) as Hr1.
      destruct (skip_ws r1) as [|c r2]; [done|]. simpl in Hr1.
      destruct (c =? 44); [|by destruct (c =? 93)].
      intros H%pmap_PFuel. revert H. apply IHe. lia.
    + exfalso. revert E1. apply IHv. lia.
Qed.

(** [JSON_parse] answers with a value or a [SyntaxError], whatever the text. *)
Lemma JSON_parse_fuel text : JSON_parse text ≠ Unmodelled.
Proof.
  unfold JSON_parse.
  destruct (parse_value _ text) as [v rest| |] eqn:E.
  - by destruct (skip_ws rest).
  - done.
  - exfalso. revert E. apply (proj1 (parse_fuel _)). lia.
Qed.

(** ** [JSON.parse] reads back what [JSON.stringify] prints *)

Lemma hex_value_hex_digit d : d < 16 → hex_value (hex_digit d) = Some d.
Proof.
  intros Hd. unfold hex_value, hex_digit, is_digit.
  destruct (d <? 10) eqn:E.
  - apply N.ltb_lt in E.
    replace ((48 <=? 48 + d) && (48 + d <=? 57)) with true
      by (symmetry; apply andb_true_iff; split; apply N.leb_le; lia).
    f_equal. lia.
  - apply N.ltb_ge in E.
    replace ((48 <=? 87 + d) && (87 + d <=? 57)) with false
      by (symmetry; apply andb_false_iff; right; apply N.leb_gt; lia).
    replace ((97 <=? 87 + d) && (87 + d <=? 102)) with true
      by (symmetry; apply andb_true_iff; split; apply N.leb_le; lia).
    f_equal. lia.
Qed.

Lemma hex4_value_escape c :
  c < 65536 →
  hex4_value (hex_digit (c / 4096 mod 16)) (hex_digit (c / 256 mod 16))
    (hex_digit (c / 16 mod 16)) (hex_digit (c mod 16)) = Some c.
Proof.
  intros Hc. unfold hex4_value.
  rewrite !hex_value_hex_digit by (apply N.mod_lt; lia).
  f_equal.
  replace (c / 4096) with (c / 16 / 16 / 16) by (rewrite !N.Div0.div_div; f_equal).
  replace (c / 256) with (c / 16 / 16) by (rewrite !N.Div0.div_div; f_equal).
  pose proof (N.div_mod c 16). pose proof (N.div_mod (c / 16) 16).
  pose proof (N.div_mod (c / 16 / 16) 16).
  assert (c / 16 / 16 / 16 < 16)
    by (rewrite !N.Div0.div_div; apply N.Div0.div_lt_upper_bound; lia).
  rewrite (N.mod_small (c / 16 / 16 / 16)) by done.
  lia.
Qed.

Lemma parse_string_body_literal c r :
  c ≠ 34 → c ≠ 92 → 32 ≤ c →
  parse_string_body (c :: r) = cons_fst c (parse_string_body r).
Proof.
  intros H1 H2 H3. simpl.
  rewrite (proj2 (N.eqb_neq c 34) H1), (proj2 (N.eqb_neq c 92) H2).
  by rewrite (proj2 (N.ltb_ge c 32) H3).
Qed.

Lemma parse_string_body_unicode c r :
  c < 65536 →
  parse_string_body (unicode_escape c ++ r) = cons_fst c (parse_string_body r).
Proof.
  intros Hc. unfold unicode_escape.
  cbn [app parse_string_body].
  change (92 =? 34) with false. change (92 =? 92) with true.
  change (117 =? 117) with true. cbv iota.
  by rewrite hex4_value_escape.
Qed.

Lemma short_escape_unescape c e :
  short_escape c = Some e → e ≠ 117 ∧ unescape e = Some c.
Proof.
  unfold short_escape. intros H.
  repeat (case_match; [match goal with H : (_ =? _) = true |- _ => apply N.eqb_eq in H end;
                       simplify_eq; by split|]).
  done.
Qed.

Lemma short_escape_none c :
  short_escape c = None → c ≠ 34 ∧ c ≠ 92.
Proof.
  unfold short_escape. intros H.
  repeat case_match; try done.
  split; by apply N.eqb_neq.
Qed.

Lemma parse_string_body_short c e r :
  short_escape c = Some e →
  parse_string_body (92 :: e :: r) = cons_fst c (parse_string_body r).
Proof.
  intros [H1 H2]%short_escape_unescape.
  cbn [parse_string_body].
  change (92 =? 34) with false. change (92 =? 92) with true. cbv iota.
  by rewrite (proj2 (N.eqb_neq e 117) H1), H2.
Qed.

Lemma parse_string_body_quote_aux n : ∀ s rest,
  (length s ≤ n)%nat →
  parse_string_body (quote_units s ++ 34 :: rest) = Some (s, rest).
Proof.
  induction n as [|n IH]; intros s rest Hn.
  { destruct s; [done|simpl in Hn; lia]. }
  destruct s as [|c r]; [done|].
  simpl in Hn. cbn [quote_units].
  destruct (short_escape c) as [e|] eqn:He.
  { cbn [app]. rewrite (parse_string_body_short c e _ He), IH by lia. done. }
  destruct (short_escape_none c He) as [Hq Hb].
  destruct (c <? 32) eqn:Hc.
  { apply N.ltb_lt in Hc. rewrite <- app_assoc, parse_string_body_unicode by lia.
    rewrite IH by lia. done. }
  apply N.ltb_ge in Hc.
  destruct (is_high_surrogate c) eqn:Hh.
  { assert (c < 65536).
    { unfold is_high_surrogate in Hh. apply andb_true_iff in Hh as [_ Hh].
      apply N.leb_le in Hh. lia. }
    destruct r as [|d r'].
    - rewrite parse_string_body_unicode by done. done.
    - destruct (is_low_surrogate d) eqn:Hl.
      + cbn [app]. rewrite parse_string_body_literal by done.
        assert (d ≠ 34 ∧ d ≠ 92 ∧ 32 ≤ d) as (?&?&?).
        { unfold is_low_surrogate in Hl. apply andb_true_iff in Hl as [Hl _].
          apply N.leb_le in Hl. lia. }
        rewrite parse_string_body_literal by done.
        rewrite IH by (simpl in Hn; lia). done.
      + rewrite <- app_assoc, parse_string_body_unicode by done.
        rewrite IH by lia. done. }
  destruct (is_low_surrogate c) eqn:Hl.
  { assert (c < 65536).
    { unfold is_low_surrogate in Hl. apply andb_true_iff in Hl as [_ Hl].
      apply N.leb_le in Hl. lia. }
    rewrite <- app_assoc, parse_string_body_unicode by done.
    rewrite IH by lia. done. }
  cbn [app]. rewrite parse_string_body_literal by done.
  rewrite IH by lia. done.
Qed.

Lemma parse_string_body_quote s rest :
  parse_string_body (quote_units s ++ 34 :: rest) = Some (s, rest).
Proof. by apply (parse_string_body_quote_aux (length s)). Qed.


Lemma member_text k v tail :
  QuoteJSONString k ++ 58 :: QuoteJSONString v ++ tail
  = 34 :: quote_units k ++ 34 :: 58 :: 34 :: quote_units v ++ 34 :: tail.
Proof.
  unfold QuoteJSONString. cbn [app]. f_equal.
  rewrite <- app_assoc. cbn [app]. do 4 f_equal.
  by rewrite <- app_assoc.
Qed.

Lemma member_text_app k v tail rest :
  (QuoteJSONString k ++ 58 :: QuoteJSONString v ++ tail) ++ rest
  = 34 :: quote_units k ++ 34 :: 58 :: 34 :: quote_units v ++ 34 :: (tail ++ rest).
Proof.
  rewrite member_text. cbn [app]. f_equal.
  rewrite <- (app_assoc (quote_units k)). cbn [app]. do 4 f_equal.
  by rewrite <- (app_assoc (quote_units v)).
Qed.

Lemma parse_value_string f v tail :
  parse_value (S f) (34 :: quote_units v ++ 34 :: tail) = POk (JStr v) tail.
Proof.
  cbn [parse_value skip_ws]. change (is_ws 34) with false. cbv iota.
  change (34 =? 123) with false. change (34 =? 91) with false.
  change (34 =? 34) with true. cbv iota.
  by rewrite parse_string_body_quote.
Qed.

Lemma parse_members_step f k v tail :
  parse_members (S (S f)) (34 :: quote_units k ++ 34 :: 58 :: 34 :: quote_units v ++ 34 :: tail)
  = match skip_ws tail with
    | c :: r4 =>
        if c =? 44 then pmap (cons (k, JStr v)) (parse_members (S f) r4)
        else if c =? 125 then POk [(k, JStr v)] r4
        else PErr
    | [] => PErr
    end.
Proof.
  cbn [parse_members skip_ws]. change (is_ws 34) with false. cbv iota.
  cbn [expect]. change (34 =? 34) with true. cbv iota.
  rewrite parse_string_body_quote.
  cbn [skip_ws]. change (is_ws 58) with false. cbv iota.
  cbn [expect]. change (58 =? 58) with true. cbv iota.
  by rewrite parse_value_string.
Qed.

Lemma parse_members_member f k v tail rest :
  parse_members (S (S f)) ((QuoteJSONString k ++ 58 :: QuoteJSONString v ++ tail) ++ rest)
  = match skip_ws (tail ++ rest) with
    | c :: r4 =>
        if c =? 44 then pmap (cons (k, JStr v)) (parse_members (S f) r4)
        else if c =? 125 then POk [(k, JStr v)] r4
        else PErr
    | [] => PErr
    end.
Proof. by rewrite member_text_app, parse_members_step. Qed.

Lemma stringify_members_length ms t :
  stringify_members ms = Some t → (length ms ≤ length t)%nat.
Proof.
  revert t. induction ms as [|[k j] r IH]; intros t H; simpl in *; [lia|].
  destruct j; try done.
  destruct (stringify_members r) as [t'|]; [|done].
  specialize (IH t' eq_refl). simplify_eq.
  destruct r; simpl in *; rewrite !length_app; simpl; rewrite !length_app; simpl; lia.
Qed.

Lemma parse_members_stringify ms : ∀ t fuel rest,
  ms ≠ [] → stringify_members ms = Some t → (length ms < fuel)%nat →
  parse_members fuel (t ++ 125 :: rest) = POk ms rest.
Proof.
  induction ms as [|[k j] r IH]; intros t fuel rest Hne Ht Hf; [done|].
  cbn [stringify_members] in Ht. destruct j; try done.
  destruct (stringify_members r) as [t'|] eqn:Hr; [|done].
  injection Ht as <-.
  destruct fuel as [|[|f]]; cbn [length] in Hf; try lia.
  destruct r as [|m r'].
  - etrans; [apply (parse_members_member f k s [] (125 :: rest))|]. done.
  - etrans; [apply (parse_members_member f k s (44 :: t') (125 :: rest))|].
    cbn [app skip_ws]. change (is_ws 44) with false. cbv iota.
    rewrite (IH t' (S f) rest); [done|done|done|cbn [length] in *; lia].
Qed.

Lemma stringify_members_head k v r t :
  stringify_members ((k, JStr v) :: r) = Some t → ∃ t', t = 34 :: t'.
Proof.
  cbn [stringify_members]. destruct (stringify_members r); [|done].
  intros H. injection H as <-. eexists. reflexivity.
Qed.

Lemma parse_value_object f ms t :
  ms ≠ [] → stringify_members ms = Some t → (length ms < f)%nat →
  parse_value (S f) (123 :: t ++ [125]) = POk (JObj (obj_build ms)) [].
Proof.
  intros Hne Ht Hf.
  destruct ms as [|[k j] r]; [done|].
  assert (∃ v, j = JStr v) as [v ->]
    by (cbn [stringify_members] in Ht; destruct j; try done; eauto).
  destruct (stringify_members_head _ _ _ _ Ht) as [t' ->].
  cbn [parse_value skip_ws app]. change (is_ws 123) with false. cbv iota.
  change (123 =? 123) with true. cbv iota.
  change (is_ws 34) with false. cbv iota.
  cbn [expect]. change (34 =? 125) with false. cbv iota.
  change (34 :: t' ++ [125]) with ((34 :: t') ++ 125 :: []).
  by rewrite (parse_members_stringify ((k, JStr v) :: r) (34 :: t') f []).
Qed.

Lemma JSON_parse_stringify o text :
  JSON_stringify o = Some text → JSON_parse text = Ret (JObj (obj_build o)).
Proof.
  unfold JSON_stringify. destruct (stringify_members o) as [t|] eqn:Ht; [|done].
  intros H. injection H as <-. unfold JSON_parse.
  destruct (decide (o = [])) as [->|Hne].
  { cbn [stringify_members] in Ht. by injection Ht as <-. }
  pose proof (stringify_members_length _ _ Ht) as Hlen.
  set (text := 123 :: t ++ [125]).
  replace (2 * length text + 2)%nat with (S (2 * length text + 1))%nat by lia.
  rewrite (parse_value_object _ o t Hne Ht); [done|].
  subst text. cbn [length]. rewrite length_app. lia.
Qed.

Section ObjectLemmas.
Context {V : Type}.
Implicit Types (o ms : list (list N * V)) (k : list N) (v : V).

Lemma obj_has_own_false k o : obj_has_own k o = false ↔ k ∉ map fst o.
Proof.
  unfold obj_has_own. induction o as [|[k' v'] r IH]; simpl.
  - split; [intros _; apply not_elem_of_nil|done].
  - rewrite not_elem_of_cons. destruct (decide (k' = k)) as [->|Hne].
    + split; [done|]. by intros [? _].
    + rewrite IH. split; [done|]. by intros [_ ?].
Qed.

Lemma obj_get_own_None k o : obj_get_own k o = None ↔ k ∉ map fst o.
Proof.
  rewrite <- obj_has_own_false. unfold obj_has_own.
  by destruct (obj_get_own k o).
Qed.

Lemma obj_get_own_app k o1 o2 :
  obj_get_own k (o1 ++ o2)
  = match obj_get_own k o1 with Some v => Some v | None => obj_get_own k o2 end.
Proof.
  induction o1 as [|[k' v'] r IH]; simpl; [done|].
  by destruct (decide (k' = k)).
Qed.

Lemma obj_get_own_replace k k' v o :
  obj_get_own k' (obj_replace k v o)
  = if decide (k = k') then (match obj_get_own k o with Some _ => Some v | None => None end)
    else obj_get_own k' o.
Proof.
  induction o as [|[k2 v2] r IH]; simpl.
  - by destruct (decide (k = k')).
  - destruct (decide (k2 = k)) as [->|Hne]; simpl.
    + destruct (decide (k = k')); done.
    + rewrite IH. destruct (decide (k2 = k')) as [->|?]; [|done].
      by destruct (decide (k = k')).
Qed.

Lemma obj_get_own_insert_index i k k' v o :
  k ∉ map fst o →
  obj_get_own k' (obj_insert_index i k v o)
  = if decide (k = k') then Some v else obj_get_own k' o.
Proof.
  induction o as [|[k2 v2] r IH]; simpl; intros Hk.
  - done.
  - apply not_elem_of_cons in Hk as [Hk2 Hk].
    assert (obj_get_own k' ((k, v) :: (k2, v2) :: r)
            = if decide (k = k') then Some v else obj_get_own k' ((k2, v2) :: r)) as Hcons
      by done.
    destruct (array_index k2) as [j|]; [|done].
    destruct (j <? i); [|done].
    simpl. rewrite (IH Hk).
    destruct (decide (k2 = k')) as [->|?]; [|done].
    by destruct (decide (k = k')).
Qed.

Lemma obj_get_own_define k k' v o :
  obj_get_own k' (obj_define k v o)
  = if decide (k = k') then Some v else obj_get_own k' o.
Proof.
  unfold obj_define. destruct (obj_has_own k o) eqn:Hown.
  - rewrite obj_get_own_replace. unfold obj_has_own in Hown.
    destruct (decide (k = k')); [|done]. by destruct (obj_get_own k o).
  - apply obj_has_own_false in Hown.
    destruct (array_index k) as [i|].
    + by apply obj_get_own_insert_index.
    + rewrite obj_get_own_app. simpl.
      destruct (decide (k = k')) as [->|?].
      * by rewrite (proj2 (obj_get_own_None k' o) Hown).
      * by destruct (obj_get_own k' o).
Qed.

Lemma obj_get_own_delete k k' o :
  obj_get_own k' (obj_delete k o)
  = if decide (k = k') then None else obj_get_own k' o.
Proof.
  induction o as [|[k2 v2] r IH]; simpl.
  - by destruct (decide (k = k')).
  - destruct (decide (k2 = k)) as [->|Hne]; simpl.
    + rewrite IH. destruct (decide (k = k')); done.
    + rewrite IH. destruct (decide (k2 = k')) as [->|?]; [|done].
      by destruct (decide (k = k')).
Qed.

Lemma obj_build_snoc ms k v :
  obj_build (ms ++ [(k, v)]) = obj_define k v (obj_build ms).
Proof. unfold obj_build. by rewrite fold_left_app. Qed.

(** In the object built from a member list the last binding of a key wins. *)
Lemma obj_get_own_build k ms :
  obj_get_own k (obj_build ms) = obj_get_own k (rev ms).
Proof.
  induction ms as [|[k' v'] r IH] using rev_ind; [done|].
  rewrite obj_build_snoc, obj_get_own_define, rev_unit. simpl.
  destruct (decide (k' = k)); done.
Qed.

Lemma obj_get_own_rev k o :
  NoDup (map fst o) → obj_get_own k (rev o) = obj_get_own k o.
Proof.
  induction o as [|[k' v'] r IH]; simpl; [done|].
  intros [Hk Hr]%NoDup_cons. rewrite obj_get_own_app, (IH Hr). simpl.
  destruct (decide (k' = k)) as [->|?].
  - by rewrite (proj2 (obj_get_own_None k r) Hk).
  - by destruct (obj_get_own k r).
Qed.

Lemma obj_keys_replace k v o : map fst (obj_replace k v o) = map fst o.
Proof.
  induction o as [|[k' v'] r IH]; simpl; [done|].
  destruct (decide (k' = k)); simpl; by rewrite ?IH.
Qed.

Lemma obj_keys_insert_index i k v o :
  map fst (obj_insert_index i k v o) ≡ₚ k :: map fst o.
Proof.
  induction o as [|[k' v'] r IH]; simpl; [done|].
  destruct (array_index k') as [j|]; [|done].
  destruct (j <? i); [|done].
  simpl. rewrite IH. apply Permutation_swap.
Qed.

Lemma obj_define_NoDup k v o :
  NoDup (map fst o) → NoDup (map fst (obj_define k v o)).
Proof.
  intros Hnd. unfold obj_define. destruct (obj_has_own k o) eqn:Hown.
  - by rewrite obj_keys_replace.
  - apply obj_has_own_false in Hown. destruct (array_index k) as [i|].
    + rewrite obj_keys_insert_index. by apply NoDup_cons.
    + rewrite map_app. simpl. apply NoDup_app. repeat split; [done| |apply NoDup_singleton].
      intros x Hx Hx'%list_elem_of_singleton. by subst.
Qed.

Lemma obj_build_NoDup ms : NoDup (map fst (obj_build ms)).
Proof.
  induction ms as [|[k v] r IH] using rev_ind; [apply NoDup_nil_2|].
  rewrite obj_build_snoc. by apply obj_define_NoDup.
Qed.

Lemma obj_delete_NoDup k o :
  NoDup (map fst o) → NoDup (map fst (obj_delete k o)).
Proof.
  induction o as [|[k' v'] r IH]; simpl; [done|].
  intros [Hk Hr]%NoDup_cons. destruct (decide (k' = k)); [by apply IH|].
  simpl. apply NoDup_cons. split; [|by apply IH].
  rewrite <- obj_get_own_None, obj_get_own_delete.
  destruct (decide (k = k')); [done|]. by apply obj_get_own_None.
Qed.

End ObjectLemmas.

Lemma parse_value_object_NoDup fuel s o rest :
  parse_value fuel s = POk (JObj o) rest → NoDup (map fst o).
Proof.
  destruct fuel as [|f]; [done|]. cbn [parse_value].
  destruct (skip_ws s) as [|c r]; [done|].
  destruct (c =? 123).
  { destruct (expect 125 (skip_ws r)).
    - intros H. injection H as <- _. apply NoDup_nil_2.
    - destruct (parse_members f r); try done. cbn [pmap].
      intros H. injection H as <- _. apply obj_build_NoDup. }
  destruct (c =? 91).
  { destruct (expect 93 (skip_ws r)); [done|].
    by destruct (parse_elements f r). }
  repeat case_match; done.
Qed.

Lemma JSON_parse_object_NoDup text o :
  JSON_parse text = Ret (JObj o) → NoDup (map fst o).
Proof.
  unfold JSON_parse.
  destruct (parse_value _ text) as [v rest| |] eqn:Hp; try done.
  destruct (skip_ws rest); [|done].
  intros H. injection H as ->. by eapply parse_value_object_NoDup.
Qed.

Lemma stringify_members_is_Some o :
  all_strings o → is_Some (stringify_members o).
Proof.
  induction 1 as [|[k j] r Hj Hr IH]; [by eexists|].
  cbn [stringify_members]. destruct j; try done.
  destruct IH as [t ->]. by eexists.
Qed.

Lemma JSON_stringify_is_Some o :
  all_strings o → ∃ t, JSON_stringify o = Some (123 :: t).
Proof.
  intros [t Ht]%stringify_members_is_Some. unfold JSON_stringify. rewrite Ht. by eexists.
Qed.

Lemma all_strings_replace k j o :
  is_string j → all_strings o → all_strings (obj_replace k j o).
Proof.
  intros Hs. induction 1 as [|[k' j'] r Hj Hr IH]; simpl; [by constructor|].
  destruct (decide (k' = k)); by constructor.
Qed.

Lemma all_strings_insert_index i k j o :
  is_string j → all_strings o → all_strings (obj_insert_index i k j o).
Proof.
  intros Hs. induction 1 as [|[k' j'] r Hj Hr IH]; simpl; [by repeat constructor|].
  destruct (array_index k') as [n|]; [destruct (n <? i)|]; by repeat constructor.
Qed.

Lemma all_strings_define k j o :
  is_string j → all_strings o → all_strings (obj_define k j o).
Proof.
  intros Hs Ho. unfold obj_define. destruct (obj_has_own k o).
  - by apply all_strings_replace.
  - destruct (array_index k).
    + by apply all_strings_insert_index.
    + apply Forall_app. split; [done|]. by repeat constructor.
Qed.

Lemma all_strings_assign k v o : all_strings o → all_strings (obj_assign k v o).
Proof.
  intros Ho. unfold obj_assign. case_match; [done|]. by apply all_strings_define.
Qed.

Lemma all_strings_build ms : all_strings ms → all_strings (obj_build ms).
Proof.
  induction ms as [|[k j] r IH] using rev_ind; [done|].
  intros [Hr Hj]%Forall_app. rewrite obj_build_snoc.
  apply all_strings_define; [by inversion Hj|by apply IH].
Qed.

Lemma all_strings_delete k o :
  all_strings o → all_strings (obj_delete k o).
Proof.
  induction 1 as [|[k' j] r Hj Hr IH]; simpl; [by constructor|].
  destruct (decide (k' = k)); [done|by constructor].
Qed.

Lemma obj_get_build k o :
  NoDup (map fst o) → obj_get k (obj_build o) = obj_get k o.
Proof. intros Hnd. unfold obj_get. by rewrite obj_get_own_build, obj_get_own_rev. Qed.

(** Reading back, through the JSON path, the object just stored. *)
Lemma store_then_get now f o k w :
  native (storage f) → direct f = false → key_allowed f k = true →
  all_strings o → NoDup (map fst o) →
  ∃ w1, store_object now f o w = (Ret (), w1)
        ∧ root_ok (native_store (storage f) w1)
        ∧ getItem f k w1 = Ret (or_null (obj_get k o)).
Proof.
  intros Hn Hd Hk Ho Hnd.
  destruct (JSON_stringify_is_Some o Ho) as [t Ht].
  unfold store_object, getItem, root_ok. rewrite Ht, Hk, Hd.
  pose proof (JSON_parse_stringify _ _ Ht) as Hp.
  destruct Hn as [-> | ->]; simpl; eexists; (split; [done|]); simpl;
    rewrite lookup_insert_eq; simpl; rewrite Hp, obj_get_build by done;
    (split; [|done]); right; eexists; (split; [done|]); by apply all_strings_build.
Qed.

Lemma or_null_defined k v o :
  v ≠ [] → or_null (obj_get k (obj_define k (JStr v) o)) = vstr v.
Proof.
  intros Hv. unfold obj_get. rewrite obj_get_own_define, decide_True by done.
  unfold or_null, truthy, truthy_json. by rewrite bool_decide_eq_false_2.
Qed.

Lemma or_null_deleted k o :
  k ∉ object_prototype_keys → or_null (obj_get k (obj_delete k o)) = vnull.
Proof.
  intros Hk. unfold obj_get. rewrite obj_get_own_delete, decide_True by done.
  by rewrite bool_decide_eq_false_2.
Qed.

Lemma obj_assign_define k v o :
  k ≠ js "__proto__" → obj_assign k v o = obj_define k (JStr v) o.
Proof. intros Hk. unfold obj_assign. by rewrite bool_decide_eq_false_2. Qed.

Lemma storage_getItem_native r key w :
  native r → storage_getItem r key w = Ret (native_store r w !! key).
Proof. by intros [-> | ->]. Qed.

(** The round trip on a native backend. *)
Lemma setItem_then_getItem now f k v w :
  native (storage f) → direct f = false → key_allowed f k = true →
  v ≠ [] → k ≠ js "__proto__" → root_ok (native_store (storage f) w) →
  ∃ w1, setItem now f k v w = (Ret (), w1)
        ∧ root_ok (native_store (storage f) w1)
        ∧ getItem f k w1 = Ret (vstr v).
Proof.
  intros Hn Hd Hk Hv Hp Hroot. unfold setItem. rewrite Hk, Hd. simpl.
  rewrite storage_getItem_native by done. unfold root_ok in Hroot.
  assert (∃ w1, store_object now f (obj_define k (JStr v) []) w = (Ret (), w1)
                ∧ root_ok (native_store (storage f) w1)
                ∧ getItem f k w1 = Ret (vstr v)) as Hfresh.
  { destruct (store_then_get now f (obj_define k (JStr v) []) k w) as (w1 & ? & ? & Hg);
      try done.
    - apply all_strings_define; [done|constructor].
    - apply obj_define_NoDup, NoDup_nil_2.
    - rewrite or_null_defined in Hg by done. eauto. }
  destruct (native_store (storage f) w !! STORAGE_NAME) as [[|c text]|]; simpl; try done.
  destruct Hroot as [?|(o & Hparse & Ho)]; [done|].
  rewrite Hparse, obj_assign_define by done.
  destruct (store_then_get now f (obj_define k (JStr v) o) k w) as (w1 & ? & ? & Hg);
    try done.
  - by apply all_strings_define.
  - by eapply obj_define_NoDup, JSON_parse_object_NoDup.
  - rewrite or_null_defined in Hg by done. eauto.
Qed.

(** Removal on a native backend. *)
Lemma removeItem_then_getItem now f k w :
  native (storage f) → direct f = false → key_allowed f k = true →
  k ∉ object_prototype_keys → root_ok (native_store (storage f) w) →
  ∃ w1, removeItem now f k w = (Ret (), w1) ∧ getItem f k w1 = Ret vnull.
Proof.
  intros Hn Hd Hk Hp Hroot. unfold removeItem. rewrite Hk, Hd. simpl.
  rewrite storage_getItem_native by done. unfold root_ok in Hroot.
  assert (native_store (storage f) w !! STORAGE_NAME = None
          ∨ native_store (storage f) w !! STORAGE_NAME = Some [] →
          getItem f k w = Ret vnull) as Hempty.
  { intros He. unfold getItem. rewrite Hk, Hd. simpl.
    rewrite storage_getItem_native by done. by destruct He as [-> | ->]. }
  destruct (native_store (storage f) w !! STORAGE_NAME) as [[|c text]|]; simpl; eauto.
  destruct Hroot as [?|(o & Hparse & Ho)]; [done|].
  rewrite Hparse.
  destruct (store_then_get now f (obj_delete k o) k w) as (w1 & ? & ? & Hg); try done.
  - by apply all_strings_delete.
  - by eapply obj_delete_NoDup, JSON_parse_object_NoDup.
  - rewrite or_null_deleted in Hg by done. eauto.
Qed.

(** ** The cookie text read by [CookieStorage.getItem] *)

Lemma decodeURIComponent_plain s :
  Forall (fun c => c ≠ 37) s → decodeURIComponent s = Some s.
Proof.
  induction 1 as [|c r Hc Hr IH]; [done|].
  cbn [decodeURIComponent]. rewrite (proj2 (N.eqb_neq c 37) Hc). cbn [negb].
  by rewrite IH.
Qed.

Lemma split_on_plain sep s :
  Forall (fun c => c ≠ sep) s → split_on sep s = [s].
Proof.
  induction 1 as [|c r Hc Hr IH]; [done|].
  cbn [split_on]. by rewrite (proj2 (N.eqb_neq c sep) Hc), IH.
Qed.

Lemma split_on_not_nil sep s : split_on sep s ≠ [].
Proof.
  destruct s as [|c r]; [done|]. cbn [split_on].
  destruct (c =? sep); [done|]. by destruct (split_on sep r).
Qed.

Lemma split_on_app sep a b :
  split_on sep (a ++ sep :: b) = split_on sep a ++ split_on sep b.
Proof.
  induction a as [|c r IH]; cbn [app split_on].
  - by rewrite N.eqb_refl.
  - destruct (c =? sep); [by rewrite IH|].
    rewrite IH. destruct (split_on sep r) eqn:E; [|done].
    by apply split_on_not_nil in E.
Qed.

Lemma starts_with_name p n v :
  Forall (fun c => c ≠ 61) p → Forall (fun c => c ≠ 61) n →
  starts_with (p ++ [61]) (n ++ 61 :: v) = bool_decide (n = p).
Proof.
  intros Hp. revert n. induction Hp as [|y p Hy Hp IH]; intros n Hn.
  - destruct Hn as [|x n Hx Hn]; cbn [app starts_with].
    + by rewrite N.eqb_refl.
    + rewrite (proj2 (N.eqb_neq 61 x)) by done. done.
  - destruct Hn as [|x n Hx Hn]; cbn [app starts_with].
    + rewrite (proj2 (N.eqb_neq y 61)) by done. done.
    + rewrite (IH n Hn). destruct (N.eqb_spec y x) as [->|Hne]; simpl.
      * apply bool_decide_ext. split; [by intros ->|by intros [=]].
      * symmetry. apply bool_decide_eq_false_2. intros [=]. by subst.
Qed.

Lemma drop_name p v : drop (length (p ++ [61])) (p ++ 61 :: v) = v.
Proof.
  induction p as [|c p IH]; [done|]. exact IH.
Qed.

Lemma drop_spaces_name n rest :
  n ≠ [] → head n ≠ Some 32 → CookieStorage.drop_spaces (n ++ rest) = n ++ rest.
Proof.
  destruct n as [|c n']; [done|]. intros _ Hh. cbn [app CookieStorage.drop_spaces].
  rewrite (proj2 (N.eqb_neq c 32)); [done|]. intros ->. by apply Hh.
Qed.

Section GetItem.
Variable name : list N.
Hypothesis name_plain : Forall (fun c => c ≠ 61) name.

Lemma find_cookie_segment (c : cookie) (sp : list N) segs :
  plain_cookie c → sp = [] ∨ sp = [32] →
  CookieStorage.find_cookie (name ++ [61]) ((sp ++ c_name c ++ 61 :: c_value c) :: segs)
  = if cookie_named name c then c_value c
    else CookieStorage.find_cookie (name ++ [61]) segs.
Proof.
  intros (Hn & Hv & Heq & Hne & Hh) Hsp. cbn [CookieStorage.find_cookie].
  assert (CookieStorage.drop_spaces (sp ++ c_name c ++ 61 :: c_value c)
          = c_name c ++ 61 :: c_value c) as ->.
  { destruct Hsp as [-> | ->]; cbn [app CookieStorage.drop_spaces];
      rewrite ?N.eqb_refl; by apply drop_spaces_name. }
  rewrite starts_with_name by done. unfold cookie_named.
  case_bool_decide as E; [|done]. by rewrite E, drop_name.
Qed.

Lemma plain_cookie_pair c :
  plain_cookie c → Forall (fun u => u ≠ 59) (c_name c ++ 61 :: c_value c).
Proof.
  intros (Hn & Hv & _). apply Forall_app. split; [|constructor; [done|]].
  - eapply Forall_impl; [exact Hn|]. by intros ? [? _].
  - eapply Forall_impl; [exact Hv|]. by intros ? [? _].
Qed.

Lemma find_cookie_jar (jar : list cookie) : ∀ sp,
  Forall plain_cookie jar → jar ≠ [] → sp = [] ∨ sp = [32] →
  CookieStorage.find_cookie (name ++ [61]) (split_on 59 (sp ++ cookie_text jar))
  = jar_value name jar.
Proof.
  induction jar as [|c r IH]; intros sp Hj Hne Hsp; [done|].
  apply Forall_cons in Hj as [Hc Hr].
  assert (Forall (fun u => u ≠ 59) (sp ++ c_name c ++ 61 :: c_value c)) as Hseg.
  { apply Forall_app. split; [|by apply plain_cookie_pair].
    destruct Hsp as [-> | ->]; by repeat constructor. }
  unfold jar_value. cbn [cookie_text find].
  destruct r as [|d r'].
  - rewrite !app_nil_r.
    rewrite split_on_plain by done.
    rewrite find_cookie_segment by done. cbn [find CookieStorage.find_cookie].
    by destruct (cookie_named name c).
  - replace (sp ++ c_name c ++ 61 :: c_value c ++ 59 :: 32 :: cookie_text (d :: r'))
      with ((sp ++ c_name c ++ 61 :: c_value c) ++ 59 :: [32] ++ cookie_text (d :: r'))
      by (rewrite <- !app_assoc; cbn [app]; do 2 f_equal; by rewrite <- app_assoc).
    rewrite split_on_app, split_on_plain by done. cbn [app].
    rewrite find_cookie_segment by done.
    destruct (cookie_named name c); [done|].
    apply (IH [32]); [done|done|by right].
Qed.

End GetItem.

Lemma cookie_text_plain cs :
  Forall plain_cookie cs → Forall (fun c => c ≠ 37) (cookie_text cs).
Proof.
  induction 1 as [|c r (Hn & Hv & _) Hr IH]; [done|].
  cbn [cookie_text]. apply Forall_app. split.
  { eapply Forall_impl; [exact Hn|]. by intros ? [_ ?]. }
  constructor; [done|]. apply Forall_app. split.
  { eapply Forall_impl; [exact Hv|]. by intros ? [_ ?]. }
  destruct r; [done|]. by repeat constructor.
Qed.

Lemma visible_cookies_Forall (P : cookie → Prop) jar :
  Forall P jar → Forall P (visible_cookies jar).
Proof.
  rewrite !Forall_forall. intros H c Hc.
  apply list_elem_of_filter in Hc as [_ Hc]. by apply H.
Qed.

Lemma visible_at_root c : c_path c = js "/" → visible c = true.
Proof. unfold visible. by intros ->. Qed.

(** The first cookie of a name among the visible ones is the first of the
    jar, when the cookies of that name are at the root. *)
Lemma find_visible name jar :
  Forall (fun c => c_name c = name → c_path c = js "/") jar →
  find (cookie_named name) (visible_cookies jar) = find (cookie_named name) jar.
Proof.
  unfold visible_cookies, cookie_named.
  induction 1 as [|c r Hc Hr IH]; [done|]. cbn [find].
  case_bool_decide as Hn.
  - rewrite filter_cons_True by by apply visible_at_root, Hc.
    cbn [find]. by rewrite bool_decide_eq_true_2.
  - rewrite filter_cons. case_decide; [|done].
    cbn [find]. by rewrite bool_decide_eq_false_2.
Qed.

Lemma Forall_ne_forallb sep s :
  forallb (fun c => negb (c =? sep)) s = true → Forall (fun c => c ≠ sep) s.
Proof.
  rewrite forallb_forall, Forall_forall. intros H c Hc%list_elem_of_In.
  specialize (H c Hc). by apply negb_true_iff, N.eqb_neq in H.
Qed.

Lemma STORAGE_NAME_plain : Forall (fun c => c ≠ 61) STORAGE_NAME.
Proof. by apply Forall_ne_forallb. Qed.

(** When the cookies the document sees are plain, the read is the value of
    the first of them called [STORAGE_NAME], or the empty string when there
    is none. *)
Lemma CookieStorage_getItem_plain w :
  Forall plain_cookie (visible_cookies (jar w)) →
  CookieStorage.getItem STORAGE_NAME w
  = Ret (jar_value STORAGE_NAME (visible_cookies (jar w))).
Proof.
  intros Hj. unfold CookieStorage.getItem, document_cookie.
  rewrite decodeURIComponent_plain by by apply cookie_text_plain.
  f_equal. change (js "=") with [61].
  destruct (decide (visible_cookies (jar w) = [])) as [->|Hne]; [done|].
  apply (find_cookie_jar STORAGE_NAME STORAGE_NAME_plain (visible_cookies (jar w)) []); auto.
Qed.

(** On the cookie backend [getItem] does not look at its key: any two
    allowed keys get the same outcome.  The outcome is never [null]: it is a
    string, or the [URIError] of a malformed percent escape in
    [document.cookie]. *)
Lemma cookie_getItem_same_outcome (f : facade) (w : world) (k1 k2 : list N) :
  on_cookie f w → key_allowed f k1 = true → key_allowed f k2 = true →
  getItem f k1 w = getItem f k2 w
  ∧ getItem f k1 w ≠ Ret vnull
  ∧ (getItem f k1 w = Throw URIError ∨ ∃ s, getItem f k1 w = Ret (vstr s)).
Proof.
  intros (Ht & Hs & Hc) H1 H2. unfold getItem, direct, storage_getItem.
  rewrite H1, H2, Ht, Hs, Hc. simpl.
  repeat split.
  - unfold CookieStorage.getItem. by destruct (decodeURIComponent _).
  - unfold CookieStorage.getItem. destruct (decodeURIComponent _); eauto.
Qed.

(** C9, evaluated.  On the cookie backend, from an empty jar, [setItem] of
    the value [100% off] returns and leaves the serialized map, as it is, in
    the cookie; the following [getItem], under the key written or any other,
    does not return that text: it throws the [URIError] of
    [decodeURIComponent].  After [setItem] of the value [%41], [getItem]
    returns a text other than the one in the cookie. *)
Lemma cookie_getItem_percent_throws :
  (let '(f, w0) := setStorage (js "cookieStorage") (createClientStorage None) fresh_world in
   let '(r, w1) := setItem 1700000000000 f (js "sale") (js "100% off") w0 in
   r = Ret ()
   ∧ jar_value STORAGE_NAME (visible_cookies (jar w1)) = jsq "{'sale':'100% off'}"
   ∧ getItem f (js "sale") w1 = Throw URIError
   ∧ getItem f (js "zzz") w1 = Throw URIError
   ∧ getItem f (js "sale") w1 ≠ Ret (vstr (jsq "{'sale':'100% off'}")))
  ∧ (let '(f, w0) := setStorage (js "cookieStorage") (createClientStorage None) fresh_world in
     let '(r, w1) := setItem 1700000000000 f (js "a") (js "%41") w0 in
     r = Ret ()
     ∧ jar_value STORAGE_NAME (visible_cookies (jar w1)) = jsq "{'a':'%41'}"
     ∧ getItem f (js "a") w1 = Ret (vstr (jsq "{'a':'A'}"))).
Proof. vm_compute. repeat split. discriminate. Qed.

(** [setStorage("cookieStorage")] leads to such a facade and world. *)
Lemma setStorage_on_cookie f w :
  CookieStorage_storage w = None ∨ CookieStorage_storage w = Some STORAGE_NAME →
  on_cookie (fst (setStorage (js "cookieStorage") f w))
    (snd (setStorage (js "cookieStorage") f w)).
Proof.
  intros Hw. rewrite setStorage_cookie. unfold on_cookie, CookieStorage.constructor.
  simpl. destruct Hw as [Hw | Hw]; by rewrite Hw.
Qed.

(** ** The text of a date *)

Lemma digit_of_range d : 48 ≤ digit_of d ≤ 57.
Proof.
  unfold digit_of. pose proof (Z.mod_pos_bound d 10 eq_refl). lia.
Qed.

Lemma digit_of_date_unit d : date_unit (digit_of d).
Proof. pose proof (digit_of_range d). unfold date_unit. lia. Qed.

Lemma pad2_date_unit n : Forall date_unit (pad2 n).
Proof. unfold pad2. repeat constructor; apply digit_of_date_unit. Qed.

Lemma year_string_date_unit y : Forall date_unit (year_string y).
Proof.
  unfold year_string, year_digits.
  repeat (apply Forall_app; split); repeat case_match;
    repeat constructor; try apply digit_of_date_unit; by vm_compute.
Qed.

Lemma name_at_Forall (P : N → Prop) names i :
  Forall (fun n => Forall P (js n)) names → Forall P (name_at names i).
Proof.
  unfold name_at. generalize (Z.to_nat i) as n.
  intros n H. revert n. induction H as [|x l Hx Hl IH]; intros [|n]; simpl; auto.
Qed.

Lemma js_date_unit s :
  forallb (fun c => negb (c =? 59) && negb (c =? 61)) (js s) = true →
  Forall date_unit (js s).
Proof.
  rewrite forallb_forall, Forall_forall. intros H c Hc%list_elem_of_In.
  specialize (H c Hc). apply andb_true_iff in H as [H1 H2].
  apply negb_true_iff in H1, H2. apply N.eqb_neq in H1, H2. by split.
Qed.

Lemma toUTCString_date_unit tv : Forall date_unit (toUTCString tv).
Proof.
  destruct tv as [t|]; [|by apply js_date_unit].
  unfold toUTCString. destruct (civil_from_days _) as [[y m] d].
  repeat (apply Forall_app_2;
          [first [ apply pad2_date_unit | apply year_string_date_unit
                 | by apply js_date_unit
                 | apply name_at_Forall;
                   repeat (apply Forall_cons_2; [by apply js_date_unit|]);
                   apply Forall_nil_2 ]|]).
  by apply js_date_unit.
Qed.

Lemma trim_left_id c s : is_wsp c = false → trim_left (c :: s) = c :: s.
Proof. intros H. cbn [trim_left]. by rewrite H. Qed.

Lemma ends_solid_app a b : ends_solid b → ends_solid (a ++ b).
Proof. intros (r & e & -> & He). exists (a ++ r), e. by rewrite app_assoc. Qed.

Lemma trim_solid c s :
  is_wsp c = false → ends_solid (c :: s) → trim (c :: s) = c :: s.
Proof.
  intros Hc (r & e & Hs & He). unfold trim. rewrite trim_left_id by done.
  rewrite Hs, rev_unit, trim_left_id by done.
  by rewrite <- (rev_unit r e), rev_involutive.
Qed.

Lemma day_name_head i :
  (0 ≤ i < 7)%Z → ∃ c n, name_at day_names i = c :: n ∧ is_wsp c = false.
Proof.
  intros Hi. unfold name_at.
  destruct (Z.to_nat i) as [|[|[|[|[|[|[|n]]]]]]] eqn:E; try lia;
    simpl; by do 2 eexists.
Qed.

Lemma trim_toUTCString tv : trim (toUTCString tv) = toUTCString tv.
Proof.
  destruct tv as [t|]; [|done].
  unfold toUTCString. destruct (civil_from_days _) as [[y m] d].
  destruct (day_name_head ((t / 86400000 + 4) mod 7)%Z) as (c & n & -> & Hc).
  { apply Z.mod_pos_bound. lia. }
  cbn [app]. apply trim_solid; [done|].
  change (c :: ?x) with ([c] ++ x).
  repeat apply ends_solid_app. by exists [32; 71; 77], 84.
Qed.

(** ** Assigning to [document.cookie] *)

Lemma cut_at_plain sep a : Forall (fun c => c ≠ sep) a → cut_at sep a = (a, None).
Proof.
  induction 1 as [|c r Hc Hr IH]; [done|].
  cbn [cut_at]. by rewrite (proj2 (N.eqb_neq c sep) Hc), IH.
Qed.

Lemma cut_at_app sep a b :
  cut_at sep (a ++ b)
  = match cut_at sep a with
    | (a1, Some a2) => (a1, Some (a2 ++ b))
    | (a1, None) => (a1 ++ fst (cut_at sep b), snd (cut_at sep b))
    end.
Proof.
  induction a as [|c r IH]; cbn [app cut_at].
  - by destruct (cut_at sep b).
  - destruct (c =? sep); [done|]. rewrite IH.
    by destruct (cut_at sep r) as [a1 [a2|]].
Qed.

Lemma cut_at_sep sep a b :
  Forall (fun c => c ≠ sep) a → cut_at sep (a ++ sep :: b) = (a, Some b).
Proof.
  intros Ha. rewrite cut_at_app, (cut_at_plain sep a Ha). cbn [cut_at].
  by rewrite N.eqb_refl, app_nil_r.
Qed.

Lemma STORAGE_NAME_no_semicolon : Forall (fun c => c ≠ 59) STORAGE_NAME.
Proof. by apply Forall_ne_forallb. Qed.

(** The attributes the code appends to the cookie. *)
Lemma written_attributes (D : list N) :
  Forall (fun c => c ≠ 59) D →
  map parse_attribute (split_on 59 ((js "expires=" ++ D) ++ js ";path=/"))
  = [(js "expires", trim D); (js "path", [47])].
Proof.
  intros HD.
  change (js ";path=/") with (59 :: js "path=/").
  rewrite split_on_app.
  rewrite (split_on_plain 59 (js "path=/")) by by apply Forall_ne_forallb.
  rewrite split_on_plain
    by (apply Forall_app_2; [by apply Forall_ne_forallb|done]).
  assert (parse_attribute (js "expires=" ++ D) = (js "expires", trim D)) as He.
  { unfold parse_attribute.
    change (js "expires=" ++ D) with (js "expires" ++ 61 :: D).
    by rewrite cut_at_sep by by apply Forall_ne_forallb. }
  cbn [app map]. by rewrite He.
Qed.

(** A JSON text without semicolon is the whole value part of the string
    built by [setItem] and [removeItem]. *)
Lemma cut_cookie_string (json E : list N) :
  Forall (fun c => c ≠ 59) json →
  cut_at 59 (CookieStorage.cookie_string STORAGE_NAME json E)
  = (STORAGE_NAME ++ 61 :: json, Some (E ++ js ";path=/")).
Proof.
  intros Hj. unfold CookieStorage.cookie_string.
  change (js "=") with [61]. change (js ";") with [59].
  replace ((STORAGE_NAME ++ [61] ++ json ++ [59]) ++ E ++ js ";path=/")
    with ((STORAGE_NAME ++ 61 :: json) ++ 59 :: (E ++ js ";path=/"))
    by (by rewrite <- !app_assoc).
  apply cut_at_sep. apply Forall_app_2; [apply STORAGE_NAME_no_semicolon|].
  by constructor.
Qed.

Lemma cookie_attributes_string (json D : list N) :
  Forall (fun c => c ≠ 59) json → Forall (fun c => c ≠ 59) D →
  cookie_attributes (CookieStorage.cookie_string STORAGE_NAME json (js "expires=" ++ D))
  = [(js "expires", trim D); (js "path", [47])].
Proof.
  intros Hj HD. unfold cookie_attributes. rewrite cut_cookie_string by done.
  cbn [snd]. by apply written_attributes.
Qed.

(** The cookie the jar makes of the string built by [setItem] and
    [removeItem] from a JSON text without semicolon. *)
Lemma parse_set_cookie_string (json D : list N) :
  Forall (fun c => c ≠ 59) json → Forall (fun c => c ≠ 59) D →
  parse_set_cookie (CookieStorage.cookie_string STORAGE_NAME json (js "expires=" ++ D))
  = Some {| c_name := STORAGE_NAME; c_value := trim json;
            c_expires := Some (trim D); c_path := [47] |}.
Proof.
  intros Hj HD. unfold parse_set_cookie.
  rewrite cookie_attributes_string, cut_cookie_string by done. cbn [fst].
  rewrite (cut_at_sep 61 STORAGE_NAME) by apply STORAGE_NAME_plain.
  change (trim STORAGE_NAME) with STORAGE_NAME.
  by rewrite decide_False.
Qed.

(** Such a string is stored: its attributes are the two of the code. *)
Lemma set_document_cookie_string (json D : list N) (jar : list cookie) :
  Forall (fun c => c ≠ 59) json → Forall (fun c => c ≠ 59) D →
  set_document_cookie
    (CookieStorage.cookie_string STORAGE_NAME json (js "expires=" ++ D)) jar
  = Some (jar_store {| c_name := STORAGE_NAME; c_value := trim json;
                       c_expires := Some (trim D); c_path := [47] |} jar).
Proof.
  intros Hj HD. unfold set_document_cookie.
  by rewrite parse_set_cookie_string, cookie_attributes_string.
Qed.

Lemma jar_store_elem c jar : c ∈ jar_store c jar.
Proof.
  induction jar as [|d r IH]; cbn [jar_store]; [by left|].
  repeat case_match; by repeat constructor.
Qed.

(** ** Round trip and removal on the native backends *)

Lemma native_LocalRef : native LocalRef.
Proof. by left. Qed.

Lemma native_SessionRef : native SessionRef.
Proof. by right. Qed.

(** Where the round trip holds: on the local and the session backend, for
    an allowed key other than [__proto__] and a non-empty value, in a store
    whose root entry is absent, empty or the text of an object of strings,
    [setItem] returns and the following [getItem] of the key returns the
    value. *)
Lemma local_session_round_trip now (kind : list N) (f : facade) (k v : list N)
    (w : world) :
  kind ∈ map js ["localStorage"; "sessionStorage"]%string →
  key_allowed f k = true → v ≠ [] → k ≠ js "__proto__" →
  let '(f1, w0) := setStorage kind f w in
  root_ok (native_store (storage f1) w0) →
  let '(r, w1) := setItem now f1 k v w0 in
  r = Ret () ∧ getItem f1 k w1 = Ret (vstr v).
Proof.
  intros Hkind Hk Hv Hp. simpl in Hkind. rewrite !elem_of_cons in Hkind.
  destruct Hkind as [->|[->|Hkind]]; [| |by apply elem_of_nil in Hkind].
  - rewrite setStorage_local.
    set (f1 := {| allowedKeys := allowedKeys f; storageType := js "localStorage";
                  storage := LocalRef |}).
    intros Hroot.
    destruct (setItem_then_getItem now f1 k v w native_LocalRef eq_refl Hk Hv Hp Hroot)
      as (w1 & -> & _ & Hg). done.
  - rewrite setStorage_session.
    set (f1 := {| allowedKeys := allowedKeys f; storageType := js "sessionStorage";
                  storage := SessionRef |}).
    intros Hroot.
    destruct (setItem_then_getItem now f1 k v w native_SessionRef eq_refl Hk Hv Hp Hroot)
      as (w1 & -> & _ & Hg). done.
Qed.

Lemma local_session_round_trip_witness :
  let '(f1, w0) := setStorage (js "localStorage") (createClientStorage None) fresh_world in
  let '(r, w1) := setItem 0 f1 (js "name") (js "Alice") w0 in
  r = Ret () ∧ getItem f1 (js "name") w1 = Ret (vstr (js "Alice")).
Proof.
  apply (local_session_round_trip 0 (js "localStorage") (createClientStorage None)
           (js "name") (js "Alice") fresh_world).
  - simpl. rewrite !elem_of_cons. left. reflexivity.
  - reflexivity.
  - discriminate.
  - discriminate.
  - exact I.
Defined.

(** C2, evaluated.  On the local and on the session backend, from empty
    stores, [setItem('name', '')] returns and stores the empty string under
    the key; the following [getItem('name')] returns [null], not the value
    that was stored. *)
Lemma empty_value_reads_null :
  (let '(f1, w0) := setStorage (js "localStorage") (createClientStorage None) fresh_world in
   let '(r, w1) := setItem 0 f1 (js "name") [] w0 in
   r = Ret ()
   ∧ localStorage w1 !! STORAGE_NAME = Some (jsq "{'name':''}")
   ∧ JSON_parse (jsq "{'name':''}") = Ret (JObj [(js "name", JStr [])])
   ∧ getItem f1 (js "name") w1 = Ret vnull
   ∧ getItem f1 (js "name") w1 ≠ Ret (vstr []))
  ∧ (let '(f1, w0) := setStorage (js "sessionStorage") (createClientStorage None) fresh_world in
     let '(r, w1) := setItem 0 f1 (js "name") [] w0 in
     r = Ret ()
     ∧ sessionStorage w1 !! STORAGE_NAME = Some (jsq "{'name':''}")
     ∧ getItem f1 (js "name") w1 = Ret vnull
     ∧ getItem f1 (js "name") w1 ≠ Ret (vstr [])).
Proof. vm_compute. repeat split; discriminate. Qed.

(** ** The cookie backend *)

(** C3, evaluated.  On the cookie backend, from an empty jar: after
    [setItem('a','1')] the cookie's value parses to the object with the one
    member [a: 1] and the raw read returns that text; after the following
    [removeItem('a')] the facade's [getItem('a')] returns the text of the
    empty object, not [null]. *)
Lemma cookie_get_after_remove :
  let '(f, w0) := setStorage (js "cookieStorage") (createClientStorage None) fresh_world in
  let '(r1, w1) := setItem 1700000000000 f (js "a") (js "1") w0 in
  let '(r2, w2) := removeItem 1700000600000 f (js "a") w1 in
  r1 = Ret () ∧ r2 = Ret ()
  ∧ JSON_parse (jar_value STORAGE_NAME (jar w1)) = Ret (JObj [(js "a", JStr (js "1"))])
  ∧ CookieStorage.getItem STORAGE_NAME w1 = Ret (jsq "{'a':'1'}")
  ∧ CookieStorage.getItem STORAGE_NAME w2 = Ret (js "{}")
  ∧ getItem f (js "a") w2 = Ret (vstr (js "{}"))
  ∧ getItem f (js "a") w2 ≠ Ret vnull.
Proof. vm_compute. repeat split. discriminate. Qed.

(** C4, evaluated.  On the cookie backend [getItem] after [setItem] and
    [removeItem] of the key returns the text of the remaining map; on the
    local backend a key that names a property of [Object.prototype] reads as
    that inherited property once its own entry is removed.  Neither is
    [null]. *)
Lemma get_after_set_remove_not_null :
  (let '(f, w0) := setStorage (js "cookieStorage") (createClientStorage None) fresh_world in
   let '(_, w1) := setItem 1700000000000 f (js "name") (js "Alice") w0 in
   let '(_, w2) := removeItem 1700000000000 f (js "name") w1 in
   getItem f (js "name") w2 = Ret (vstr (js "{}")))
  ∧ (let '(f, w0) := setStorage (js "localStorage") (createClientStorage None) fresh_world in
     let '(_, w1) := setItem 0 f (js "constructor") (js "x") w0 in
     let '(_, w2) := removeItem 0 f (js "constructor") w1 in
     getItem f (js "constructor") w2 = Ret (VInherited (js "constructor"))).
Proof. vm_compute. split; reflexivity. Qed.

(** X15. Where removal does lead to [null]: on the native backends, for a
    key that [Object.prototype] does not define, [getItem] after [setItem]
    and [removeItem] of the key returns [null]. *)
Lemma native_set_remove_get now (kind : list N) (f : facade) (k v : list N) (w : world) :
  kind ∈ map js ["localStorage"; "sessionStorage"]%string →
  key_allowed f k = true → v ≠ [] → k ∉ object_prototype_keys →
  let '(f1, w0) := setStorage kind f w in
  root_ok (native_store (storage f1) w0) →
  let '(r1, w1) := setItem now f1 k v w0 in
  let '(r2, w2) := removeItem now f1 k w1 in
  r1 = Ret () ∧ r2 = Ret () ∧ getItem f1 k w2 = Ret vnull.
Proof.
  intros Hkind Hk Hv Hp.
  assert (k ≠ js "__proto__") as Hproto.
  { intros ->. apply Hp. unfold object_prototype_keys. simpl.
    rewrite !elem_of_cons. do 10 right. by left. }
  simpl in Hkind. rewrite !elem_of_cons in Hkind.
  destruct Hkind as [->|[->|Hkind]]; [| |by apply elem_of_nil in Hkind].
  - rewrite setStorage_local.
    set (f1 := {| allowedKeys := allowedKeys f; storageType := js "localStorage";
                  storage := LocalRef |}).
    intros Hroot.
    destruct (setItem_then_getItem now f1 k v w native_LocalRef eq_refl Hk Hv Hproto Hroot)
      as (w1 & -> & Hroot1 & _).
    destruct (removeItem_then_getItem now f1 k w1 native_LocalRef eq_refl Hk Hp Hroot1)
      as (w2 & -> & Hg). done.
  - rewrite setStorage_session.
    set (f1 := {| allowedKeys := allowedKeys f; storageType := js "sessionStorage";
                  storage := SessionRef |}).
    intros Hroot.
    destruct (setItem_then_getItem now f1 k v w native_SessionRef eq_refl Hk Hv Hproto Hroot)
      as (w1 & -> & Hroot1 & _).
    destruct (removeItem_then_getItem now f1 k w1 native_SessionRef eq_refl Hk Hp Hroot1)
      as (w2 & -> & Hg). done.
Qed.

(** On the memory backend removal leads to [null] for every key. *)
Lemma memory_set_remove_get now (f : facade) (k v : list N) (w : world) :
  key_allowed f k = true →
  let '(f1, w0) := setStorage (js "memoryStorage") f w in
  let '(r1, w1) := setItem now f1 k v w0 in
  let '(r2, w2) := removeItem now f1 k w1 in
  r1 = Ret () ∧ r2 = Ret () ∧ getItem f1 k w2 = Ret vnull.
Proof.
  intros Hk. rewrite setStorage_memory.
  destruct (MemoryStorage_constructed w) as [m Hm].
  unfold setItem, removeItem, getItem, key_allowed in *. simpl. rewrite Hk. simpl.
  unfold MemoryStorage.getItem, MemoryStorage.removeItem, MemoryStorage.setItem.
  rewrite Hm. simpl. by rewrite lookup_delete_eq.
Qed.

Lemma JSON_stringify_shape o text :
  JSON_stringify o = Some text → ∃ t, text = 123 :: t ++ [125].
Proof.
  unfold JSON_stringify. destruct (stringify_members o) as [t|]; [|done].
  intros [= <-]. eauto.
Qed.

Lemma trim_JSON_stringify o text : JSON_stringify o = Some text → trim text = text.
Proof.
  intros [t ->]%JSON_stringify_shape. apply trim_solid; [done|].
  by exists (123 :: t), 125.
Qed.

(** What [write] does with a map whose text holds no semicolon. *)
Lemma CookieStorage_write_spec now o text w :
  JSON_stringify o = Some text → Forall (fun c => c ≠ 59) text →
  CookieStorage.write STORAGE_NAME (js "expires=" ++ CookieStorage.getUpdatedTime now) o w
  = (Ret (), set_jar (jar_store (written_cookie now text) (jar w)) w).
Proof.
  intros Ht Hs. unfold CookieStorage.write. rewrite Ht.
  rewrite set_document_cookie_string;
    [|done|eapply Forall_impl; [apply toUTCString_date_unit|by intros ? [? _]]].
  unfold CookieStorage.getUpdatedTime, written_cookie.
  by rewrite trim_toUTCString, (trim_JSON_stringify o text).
Qed.

Lemma cookie_map_all_strings w o : cookie_map w o → all_strings o.
Proof. intros [[_ ->]|(s & _ & _ & _ & Ho)]; [constructor|done]. Qed.

Lemma CookieStorage_setItem_map now key value w o :
  cookie_map w o →
  CookieStorage.setItem now STORAGE_NAME key value w
  = CookieStorage.write STORAGE_NAME (js "expires=" ++ CookieStorage.getUpdatedTime now)
      (obj_assign key value o) w.
Proof.
  unfold CookieStorage.setItem.
  intros [[-> ->]|(s & Hs & -> & -> & _)]; [done|]. by destruct s.
Qed.

Lemma CookieStorage_removeItem_map now key w o :
  cookie_map w o →
  CookieStorage.removeItem now STORAGE_NAME key w
  = CookieStorage.write STORAGE_NAME (js "expires=" ++ CookieStorage.getUpdatedTime now)
      (obj_delete key o) w.
Proof.
  unfold CookieStorage.removeItem.
  intros [[-> ->]|(s & Hs & -> & -> & _)]; [done|]. by destruct s.
Qed.

(** C5, as amended.  [setItem] of the cookie store starts from the empty
    map when the cookie is absent or empty and from the parsed object of
    strings otherwise, and sets the key in it (any key but [__proto__] then
    maps to the value).  When the serialized map holds no semicolon, the call
    returns and the jar holds the cookie [__react__storage] with the
    serialized map as its value, the [expires] text of the clock reading plus
    seven days and path [/].  When the cookie value is not JSON the call
    throws the [SyntaxError] of [JSON.parse] and the jar stays as it was. *)
Theorem cookie_write now (key value : list N) (w : world) :
  (∀ o, cookie_map w o →
     ∃ text, JSON_stringify (obj_assign key value o) = Some text
       ∧ (key ≠ js "__proto__" →
          obj_get_own key (obj_assign key value o) = Some (JStr value))
       ∧ (Forall (fun c => c ≠ 59) text →
          CookieStorage.setItem now STORAGE_NAME key value w
          = (Ret (), set_jar (jar_store (written_cookie now text) (jar w)) w)
          ∧ written_cookie now text
              ∈ jar (snd (CookieStorage.setItem now STORAGE_NAME key value w))))
  ∧ (∀ s, s ≠ [] → CookieStorage.getItem STORAGE_NAME w = Ret s →
       JSON_parse s = Throw SyntaxError →
       CookieStorage.setItem now STORAGE_NAME key value w = (Throw SyntaxError, w)).
Proof.
  split.
  - intros o Hmap. pose proof (cookie_map_all_strings w o Hmap) as Ho.
    destruct (JSON_stringify_is_Some (obj_assign key value o)) as [t Ht];
      [by apply all_strings_assign|].
    exists (123 :: t). split; [done|]. split.
    { intros Hkey. by rewrite obj_assign_define, obj_get_own_define, decide_True. }
    intros Hs.
    rewrite (CookieStorage_setItem_map now key value w o Hmap).
    rewrite (CookieStorage_write_spec now _ (123 :: t)) by done.
    split; [done|]. apply jar_store_elem.
  - intros s Hs Hg Hp. unfold CookieStorage.setItem. rewrite Hg, Hp. by destruct s.
Qed.

Lemma cookie_write_witness :
  CookieStorage.setItem 0 STORAGE_NAME (js "a") (js "1") fresh_world
  = (Ret (), set_jar (jar_store (written_cookie 0 (jsq "{'a':'1'}")) []) fresh_world)
  ∧ (let w := set_jar [{| c_name := STORAGE_NAME; c_value := js "oops";
                          c_expires := None; c_path := js "/" |}] fresh_world in
     CookieStorage.setItem 0 STORAGE_NAME (js "a") (js "1") w = (Throw SyntaxError, w)).
Proof.
  split.
  - destruct (proj1 (cookie_write 0 (js "a") (js "1") fresh_world) [])
      as (text & Ht & _ & Hw).
    { left. split; reflexivity. }
    vm_compute in Ht. injection Ht as <-.
    apply Hw. apply Forall_ne_forallb. reflexivity.
  - apply (proj2 (cookie_write 0 (js "a") (js "1")
                    (set_jar [{| c_name := STORAGE_NAME; c_value := js "oops";
                                 c_expires := None; c_path := js "/" |}] fresh_world))
             (js "oops")).
    + discriminate.
    + reflexivity.
    + reflexivity.
Defined.

(** C5 as stated fails: with a cookie value that is not JSON, [setItem]
    throws and writes nothing. *)
Lemma cookie_write_unparsable_counterexample :
  let w0 := set_jar [{| c_name := STORAGE_NAME; c_value := js "oops";
                        c_expires := None; c_path := js "/" |}] fresh_world in
  let '(f, w) := setStorage (js "cookieStorage") (createClientStorage None) w0 in
  CookieStorage.getItem STORAGE_NAME w = Ret (js "oops")
  ∧ JSON_parse (js "oops") = Throw SyntaxError
  ∧ CookieStorage.setItem 1700000000000 STORAGE_NAME (js "a") (js "1") w
    = (Throw SyntaxError, w)
  ∧ setItem 1700000000000 f (js "a") (js "1") w = (Throw SyntaxError, w).
Proof. vm_compute. repeat split. Qed.

(** ** The root entry stays well formed *)

Lemma root_ok_fresh : root_ok (localStorage fresh_world) ∧ root_ok (sessionStorage fresh_world).
Proof. done. Qed.

Lemma store_object_root_ok now f o w :
  native (storage f) → all_strings o →
  fst (store_object now f o w) = Ret ()
  ∧ root_ok (native_store (storage f) (snd (store_object now f o w))).
Proof.
  intros Hn Ho. destruct (JSON_stringify_is_Some o Ho) as [t Ht].
  unfold store_object, root_ok. rewrite Ht.
  pose proof (JSON_parse_stringify _ _ Ht) as Hp.
  destruct Hn as [-> | ->]; simpl; rewrite lookup_insert_eq;
    (split; [done|]); right; eexists; (split; [done|]); by apply all_strings_build.
Qed.

(** Calls on a facade bound to a native store keep the root entry of that
    store absent, empty or the text of an object of strings. *)
Lemma setItem_root_ok now f k v w :
  native (storage f) → direct f = false →
  root_ok (native_store (storage f) w) →
  root_ok (native_store (storage f) (snd (setItem now f k v w))).
Proof.
  intros Hn Hd Hroot. unfold setItem. rewrite Hd.
  destruct (key_allowed f k); [|done]. simpl.
  rewrite storage_getItem_native by done.
  pose proof Hroot as Hroot'. unfold root_ok in Hroot'.
  destruct (native_store (storage f) w !! STORAGE_NAME) as [[|c text]|]; simpl.
  - apply store_object_root_ok; [done|]. apply all_strings_define; [done|constructor].
  - destruct Hroot' as [?|(o & -> & Ho)]; [done|].
    apply store_object_root_ok; [done|]. by apply all_strings_assign.
  - apply store_object_root_ok; [done|]. apply all_strings_define; [done|constructor].
Qed.

Lemma removeItem_root_ok now f k w :
  native (storage f) → direct f = false →
  root_ok (native_store (storage f) w) →
  root_ok (native_store (storage f) (snd (removeItem now f k w))).
Proof.
  intros Hn Hd Hroot. unfold removeItem. rewrite Hd.
  destruct (key_allowed f k); [|done]. simpl.
  rewrite storage_getItem_native by done.
  pose proof Hroot as Hroot'. unfold root_ok in Hroot'.
  destruct (native_store (storage f) w !! STORAGE_NAME) as [[|c text]|]; simpl; try done.
  destruct Hroot' as [?|(o & -> & Ho)]; [done|].
  apply store_object_root_ok; [done|]. by apply all_strings_delete.
Qed.

(** ** What the facade never touches *)






(** X2. [setStorage] moves no data: whatever kind is selected, the two
    native stores, the cookie jar, the allow-list, a memory map that already
    exists and the cookie name of an existing cookie singleton are as before;
    a missing singleton of the selected kind is created empty. *)
Theorem setStorage_preserves (kind : list N) (f : facade) (w : world) :
  let '(f1, w1) := setStorage kind f w in
  allowedKeys f1 = allowedKeys f ∧ storageType f1 = kind
  ∧ localStorage w1 = localStorage w ∧ sessionStorage w1 = sessionStorage w
  ∧ jar w1 = jar w
  ∧ (∀ m, MemoryStorage_storage w = Some m → MemoryStorage_storage w1 = Some m)
  ∧ (∀ n, CookieStorage_storage w = Some n → CookieStorage_storage w1 = Some n)
  ∧ (MemoryStorage_storage w = None →
     MemoryStorage_storage w1
     = if decide (kind = js "memoryStorage") then Some ∅ else None)
  ∧ (CookieStorage_storage w = None →
     CookieStorage_storage w1
     = if decide (kind = js "cookieStorage") then Some STORAGE_NAME else None).
Proof.
  unfold setStorage, CookieStorage.constructor, MemoryStorage.constructor.
  destruct (decide (kind = js "cookieStorage")) as [->|Hc].
  { simpl. destruct (CookieStorage_storage w) eqn:E; simpl; rewrite ?E;
      repeat split; try done; by intros; simplify_eq. }
  rewrite (bool_decide_eq_false_2 _ Hc).
  destruct (decide (kind = js "memoryStorage")) as [->|Hm].
  { simpl. destruct (MemoryStorage_storage w) eqn:E; simpl; rewrite ?E;
      repeat split; try done; by intros; simplify_eq. }
  rewrite (bool_decide_eq_false_2 _ Hm).
  repeat case_bool_decide; simpl; repeat split; by intros.
Qed.

(** ** Where errors come from *)

Lemma JSON_parse_throws text e : JSON_parse text = Throw e → e = SyntaxError.
Proof.
  unfold JSON_parse. repeat case_match; intros; by simplify_eq.
Qed.

Lemma CookieStorage_getItem_throws name w e :
  CookieStorage.getItem name w = Throw e → e = URIError.
Proof. unfold CookieStorage.getItem. case_match; intros; by simplify_eq. Qed.

Lemma CookieStorage_write_no_throw name expires o w e :
  fst (CookieStorage.write name expires o w) ≠ Throw e.
Proof. unfold CookieStorage.write. by repeat case_match. Qed.

Lemma CookieStorage_setItem_throws now name key value w e :
  fst (CookieStorage.setItem now name key value w) = Throw e → not_Error e.
Proof.
  unfold CookieStorage.setItem.
  destruct (CookieStorage.getItem name w) as [s|e'|] eqn:Hg; simpl.
  - destruct s as [|c s].
    { intros H. by apply CookieStorage_write_no_throw in H. }
    destruct (JSON_parse (c :: s)) as [j|e'|] eqn:Hp; simpl.
    + destruct j; simpl; try done; try by intros [= <-].
      intros H. by apply CookieStorage_write_no_throw in H.
    + apply JSON_parse_throws in Hp as ->. by intros [= <-].
    + done.
  - apply CookieStorage_getItem_throws in Hg as ->. by intros [= <-].
  - done.
Qed.

Lemma CookieStorage_removeItem_throws now name key w e :
  fst (CookieStorage.removeItem now name key w) = Throw e → not_Error e.
Proof.
  unfold CookieStorage.removeItem.
  destruct (CookieStorage.getItem name w) as [s|e'|] eqn:Hg; simpl.
  - destruct s as [|c s].
    { intros H. by apply CookieStorage_write_no_throw in H. }
    destruct (JSON_parse (c :: s)) as [j|e'|] eqn:Hp; simpl.
    + destruct j; simpl; try done; try by intros [= <-].
      intros H. by apply CookieStorage_write_no_throw in H.
    + apply JSON_parse_throws in Hp as ->. by intros [= <-].
    + done.
  - apply CookieStorage_getItem_throws in Hg as ->. by intros [= <-].
  - done.
Qed.

Lemma storage_setItem_throws now r key value w e :
  fst (storage_setItem now r key value w) = Throw e → not_Error e.
Proof.
  destruct r; simpl; try done.
  destruct (CookieStorage_storage w); [|done]. apply CookieStorage_setItem_throws.
Qed.

Lemma storage_removeItem_throws now r key w e :
  fst (storage_removeItem now r key w) = Throw e → not_Error e.
Proof.
  destruct r; simpl; try done.
  destruct (CookieStorage_storage w); [|done]. apply CookieStorage_removeItem_throws.
Qed.

Lemma storage_getItem_throws r key w e :
  storage_getItem r key w = Throw e → not_Error e.
Proof.
  destruct r; simpl; try done.
  destruct (CookieStorage_storage w); [|done].
  destruct (CookieStorage.getItem _ w) eqn:Hg; try done.
  apply CookieStorage_getItem_throws in Hg as ->. by intros [= <-].
Qed.

Lemma store_object_throws now f o w e :
  fst (store_object now f o w) = Throw e → not_Error e.
Proof.
  unfold store_object. destruct (JSON_stringify o); [|done].
  apply storage_setItem_throws.
Qed.

(** X3. The only [Error] the three operations throw is the one of the
    allow-list gate: when a call throws [Error(m)], an allow-list is
    configured, the key is outside it and [m] is [Key '<key>' is not
    allowed.]. *)
Theorem error_only_from_gate now (f : facade) (k v m : list N) (w : world) :
  fst (setItem now f k v w) = Throw (Error m)
  ∨ getItem f k w = Throw (Error m)
  ∨ fst (removeItem now f k w) = Throw (Error m) →
  (∃ keys, allowedKeys f = Some keys ∧ k ∉ keys)
  ∧ m = js "Key '" ++ k ++ js "' is not allowed.".
Proof.
  intros H.
  assert (key_allowed f k = false → ∃ keys, allowedKeys f = Some keys ∧ k ∉ keys) as Hgate.
  { unfold key_allowed. destruct (allowedKeys f) as [keys|]; [|done].
    intros Hk%bool_decide_eq_false. eauto. }
  destruct (key_allowed f k) eqn:Hk.
  - exfalso. unfold setItem, getItem, removeItem in H. rewrite Hk in H. simpl in H.
    destruct H as [H|[H|H]].
    + destruct (direct f); [by apply storage_setItem_throws in H|].
      destruct (storage_getItem (storage f) STORAGE_NAME w) as [x|e|] eqn:Hg; simpl in H.
      * destruct (truthy_string x); [|by apply store_object_throws in H].
        destruct (JSON_parse (default [] x)) as [j|e|] eqn:Hp; simpl in H.
        -- destruct j; simpl in H; try done. by apply store_object_throws in H.
        -- apply JSON_parse_throws in Hp as ->. done.
        -- done.
      * apply storage_getItem_throws in Hg. by simplify_eq.
      * done.
    + destruct (direct f).
      { destruct (storage_getItem (storage f) k w) eqn:Hg; try done.
        apply storage_getItem_throws in Hg. by simplify_eq. }
      destruct (storage_getItem (storage f) STORAGE_NAME w) as [x|e|] eqn:Hg.
      * destruct (truthy_string x); [|done].
        destruct (JSON_parse (default [] x)) as [j|e|] eqn:Hp.
        -- by destruct j.
        -- apply JSON_parse_throws in Hp as ->. done.
        -- done.
      * apply storage_getItem_throws in Hg. by simplify_eq.
      * done.
    + destruct (direct f); [by apply storage_removeItem_throws in H|].
      destruct (storage_getItem (storage f) STORAGE_NAME w) as [x|e|] eqn:Hg; simpl in H.
      * destruct (truthy_string x); [|done].
        destruct (JSON_parse (default [] x)) as [j|e|] eqn:Hp; simpl in H.
        -- destruct j; simpl in H; try done. by apply store_object_throws in H.
        -- apply JSON_parse_throws in Hp as ->. done.
        -- done.
      * apply storage_getItem_throws in Hg. by simplify_eq.
      * done.
  - split; [by apply Hgate|].
    unfold setItem, getItem, removeItem in H. rewrite Hk in H. simpl in H.
    destruct H as [H|[H|H]]; by simplify_eq.
Qed.

Lemma error_only_from_gate_witness :
  (∃ keys, allowedKeys (createClientStorage (Some [js "name"])) = Some keys
           ∧ js "role" ∉ keys)
  ∧ js "Key 'role' is not allowed." = js "Key '" ++ js "role" ++ js "' is not allowed.".
Proof.
  apply (error_only_from_gate 0 (createClientStorage (Some [js "name"]))
           (js "role") (js "x") (js "Key 'role' is not allowed.") fresh_world).
  left. reflexivity.
Defined.

(** X4. For a key the allow-list admits, the list changes nothing: each of
    the three operations does exactly what it does on a facade without an
    allow-list. *)
Theorem allowed_key_transparent now (f : facade) (k v : list N) (w : world) :
  key_allowed f k = true →
  let g := {| allowedKeys := None; storageType := storageType f; storage := storage f |} in
  setItem now f k v w = setItem now g k v w
  ∧ getItem f k w = getItem g k w
  ∧ removeItem now f k w = removeItem now g k w.
Proof.
  intros Hk g. unfold setItem, getItem, removeItem, store_object. by rewrite Hk.
Qed.

Lemma allowed_key_transparent_witness :
  let f := createClientStorage (Some [js "name"; js "age"]) in
  let g := {| allowedKeys := None; storageType := storageType f; storage := storage f |} in
  setItem 0 f (js "age") (js "7") fresh_world = setItem 0 g (js "age") (js "7") fresh_world
  ∧ getItem f (js "age") fresh_world = getItem g (js "age") fresh_world
  ∧ removeItem 0 f (js "age") fresh_world = removeItem 0 g (js "age") fresh_world.
Proof.
  apply (allowed_key_transparent 0 (createClientStorage (Some [js "name"; js "age"]))
           (js "age") (js "7") fresh_world).
  reflexivity.
Defined.

(** ** The native backends as a map of keys *)

Lemma setStorage_on_native kind f w :
  kind ∈ map js ["localStorage"; "sessionStorage"]%string →
  on_native (fst (setStorage kind f w)) ∧ snd (setStorage kind f w) = w.
Proof.
  simpl. rewrite !elem_of_cons. intros [->|[->|H]]; [| |by apply elem_of_nil in H].
  - rewrite setStorage_local. repeat split. by left.
  - rewrite setStorage_session. repeat split. by right.
Qed.

Lemma getItem_native_empty f k w :
  on_native f → key_allowed f k = true →
  native_store (storage f) w !! STORAGE_NAME = None
  ∨ native_store (storage f) w !! STORAGE_NAME = Some [] →
  getItem f k w = Ret vnull.
Proof.
  intros [Hn Hd] Hk He. unfold getItem. rewrite Hk, Hd. simpl.
  rewrite storage_getItem_native by done. by destruct He as [-> | ->].
Qed.

Lemma getItem_native_object f k w c text o :
  on_native f → key_allowed f k = true →
  native_store (storage f) w !! STORAGE_NAME = Some (c :: text) →
  JSON_parse (c :: text) = Ret (JObj o) →
  getItem f k w = Ret (or_null (obj_get k o)).
Proof.
  intros [Hn Hd] Hk Hs Hp. unfold getItem. rewrite Hk, Hd. simpl.
  rewrite storage_getItem_native by done. rewrite Hs. simpl. by rewrite Hp.
Qed.

Lemma obj_assign_NoDup k v o :
  NoDup (map fst o) → NoDup (map fst (obj_assign k v o)).
Proof. intros Ho. unfold obj_assign. case_match; [done|]. by apply obj_define_NoDup. Qed.

Lemma obj_get_assign_ne k k' v o : k ≠ k' → obj_get k' (obj_assign k v o) = obj_get k' o.
Proof.
  intros Hne. unfold obj_assign. case_match; [done|].
  unfold obj_get. by rewrite obj_get_own_define, decide_False.
Qed.

Lemma obj_get_delete_ne k k' (o : list (list N * json)) :
  k ≠ k' → obj_get k' (obj_delete k o) = obj_get k' o.
Proof. intros Hne. unfold obj_get. by rewrite obj_get_own_delete, decide_False. Qed.

(** X5. On a native backend [setItem] of one key leaves every other key
    as it reads: for an allowed key [k'] other than [k] that is not the name
    of an [Object.prototype] property, [getItem(k')] answers after the write
    what it answered before. *)
Theorem native_setItem_other_key now (f : facade) (k k' v : list N) (w : world) :
  on_native f → root_ok (native_store (storage f) w) →
  key_allowed f k = true → key_allowed f k' = true →
  k ≠ k' → k' ∉ object_prototype_keys →
  getItem f k' (snd (setItem now f k v w)) = getItem f k' w.
Proof.
  intros Hon Hroot Hk Hk' Hne Hproto. pose proof Hon as [Hn Hd].
  unfold setItem. rewrite Hk, Hd. simpl. rewrite storage_getItem_native by done.
  assert (native_store (storage f) w !! STORAGE_NAME = None
          ∨ native_store (storage f) w !! STORAGE_NAME = Some [] →
          getItem f k' (snd (store_object now f (obj_define k (JStr v) []) w))
          = getItem f k' w) as Hfresh.
  { intros He. rewrite (getItem_native_empty f k' w) by done.
    destruct (store_then_get now f (obj_define k (JStr v) []) k' w) as (w1 & Hst & _ & Hg);
      try done.
    - apply all_strings_define; [done|constructor].
    - apply obj_define_NoDup, NoDup_nil_2.
    - rewrite Hst. simpl. rewrite Hg.
      unfold obj_get. rewrite obj_get_own_define, decide_False by done. simpl.
      by rewrite bool_decide_eq_false_2. }
  unfold root_ok in Hroot.
  destruct (native_store (storage f) w !! STORAGE_NAME) as [[|c text]|] eqn:Hs; simpl;
    [by apply Hfresh; right| |by apply Hfresh; left].
  destruct Hroot as [?|(o & Hparse & Ho)]; [done|].
  rewrite Hparse. rewrite (getItem_native_object f k' w c text o) by done.
  destruct (store_then_get now f (obj_assign k v o) k' w) as (w1 & Hst & _ & Hg); try done.
  - by apply all_strings_assign.
  - by eapply obj_assign_NoDup, JSON_parse_object_NoDup.
  - rewrite Hst. simpl. by rewrite Hg, obj_get_assign_ne.
Qed.

Lemma native_setItem_other_key_witness :
  let f := fst (setStorage (js "localStorage") (createClientStorage None) fresh_world) in
  let w := snd (setItem 0 f (js "age") (js "7") fresh_world) in
  getItem f (js "age") (snd (setItem 0 f (js "name") (js "Alice") w)) = getItem f (js "age") w.
Proof.
  apply (native_setItem_other_key 0
           (fst (setStorage (js "localStorage") (createClientStorage None) fresh_world))
           (js "name") (js "age") (js "Alice")).
  - split; [by left|reflexivity].
  - right. eexists. split; [vm_compute; reflexivity|]. repeat constructor.
  - reflexivity.
  - reflexivity.
  - discriminate.
  - not_in_list.
Defined.

(** X6. On a native backend [removeItem] returns and leaves every other
    allowed key as it reads, whether or not the removed key was stored; when
    there is no root entry it writes nothing at all. *)
Theorem native_removeItem_other_key now (f : facade) (k k' : list N) (w : world) :
  on_native f → root_ok (native_store (storage f) w) →
  key_allowed f k = true → key_allowed f k' = true → k ≠ k' →
  fst (removeItem now f k w) = Ret ()
  ∧ getItem f k' (snd (removeItem now f k w)) = getItem f k' w
  ∧ (native_store (storage f) w !! STORAGE_NAME = None → snd (removeItem now f k w) = w).
Proof.
  intros Hon Hroot Hk Hk' Hne. pose proof Hon as [Hn Hd].
  unfold removeItem. rewrite Hk, Hd. simpl. rewrite storage_getItem_native by done.
  unfold root_ok in Hroot.
  destruct (native_store (storage f) w !! STORAGE_NAME) as [[|c text]|] eqn:Hs; simpl;
    try done.
  destruct Hroot as [?|(o & Hparse & Ho)]; [done|].
  rewrite Hparse. rewrite (getItem_native_object f k' w c text o) by done.
  destruct (store_then_get now f (obj_delete k o) k' w) as (w1 & Hst & _ & Hg); try done.
  - by apply all_strings_delete.
  - by eapply obj_delete_NoDup, JSON_parse_object_NoDup.
  - rewrite Hst. simpl. by rewrite Hg, obj_get_delete_ne.
Qed.

Lemma native_removeItem_other_key_witness :
  let f := fst (setStorage (js "sessionStorage") (createClientStorage None) fresh_world) in
  let w := snd (setItem 0 f (js "age") (js "7") fresh_world) in
  fst (removeItem 0 f (js "name") w) = Ret ()
  ∧ getItem f (js "age") (snd (removeItem 0 f (js "name") w)) = getItem f (js "age") w
  ∧ (native_store (storage f) w !! STORAGE_NAME = None → snd (removeItem 0 f (js "name") w) = w).
Proof.
  apply (native_removeItem_other_key 0
           (fst (setStorage (js "sessionStorage") (createClientStorage None) fresh_world))
           (js "name") (js "age")).
  - split; [by right|reflexivity].
  - right. eexists. split; [vm_compute; reflexivity|]. repeat constructor.
  - reflexivity.
  - reflexivity.
  - discriminate.
Defined.

(** X7. On a native backend the last write wins: after [setItem(k, v1)] and
    [setItem(k, v2)] with a non-empty [v2], [getItem(k)] returns [v2],
    whatever [v1] was. *)
Theorem native_last_write_wins now1 now2 (f : facade) (k v1 v2 : list N) (w : world) :
  on_native f → root_ok (native_store (storage f) w) →
  key_allowed f k = true → v2 ≠ [] → k ≠ js "__proto__" →
  let w1 := snd (setItem now1 f k v1 w) in
  let '(r, w2) := setItem now2 f k v2 w1 in
  r = Ret () ∧ getItem f k w2 = Ret (vstr v2).
Proof.
  intros [Hn Hd] Hroot Hk Hv Hp w1.
  assert (root_ok (native_store (storage f) w1)) as Hroot1 by by apply setItem_root_ok.
  destruct (setItem_then_getItem now2 f k v2 w1 Hn Hd Hk Hv Hp Hroot1) as (w2 & -> & _ & Hg).
  done.
Qed.

Lemma native_last_write_wins_witness :
  let f := fst (setStorage (js "localStorage") (createClientStorage None) fresh_world) in
  let w1 := snd (setItem 0 f (js "name") (js "Alice") fresh_world) in
  let '(r, w2) := setItem 5 f (js "name") (js "Bob") w1 in
  r = Ret () ∧ getItem f (js "name") w2 = Ret (vstr (js "Bob")).
Proof.
  apply (native_last_write_wins 0 5
           (fst (setStorage (js "localStorage") (createClientStorage None) fresh_world))
           (js "name") (js "Alice") (js "Bob") fresh_world).
  - split; [by left|reflexivity].
  - exact I.
  - reflexivity.
  - discriminate.
  - discriminate.
Defined.

(** X8. A key that names a property of [Object.prototype] does not read as
    [null] once the root object exists: in a store without root entry
    [getItem(k')] is [null], and after [setItem] of any other key it is the
    inherited property, which is not a string. *)
Theorem native_inherited_key_read now (f : facade) (k k' v : list N) (w : world) :
  on_native f → key_allowed f k = true → key_allowed f k' = true →
  native_store (storage f) w !! STORAGE_NAME = None
  ∨ native_store (storage f) w !! STORAGE_NAME = Some [] →
  k' ∈ object_prototype_keys → k ≠ k' →
  getItem f k' w = Ret vnull
  ∧ getItem f k' (snd (setItem now f k v w)) = Ret (VInherited k').
Proof.
  intros Hon Hk Hk' He Hproto Hne. pose proof Hon as [Hn Hd].
  split; [by apply getItem_native_empty|].
  unfold setItem. rewrite Hk, Hd. simpl. rewrite storage_getItem_native by done.
  assert (truthy_string (native_store (storage f) w !! STORAGE_NAME) = false) as ->
    by by destruct He as [-> | ->].
  destruct (store_then_get now f (obj_define k (JStr v) []) k' w) as (w1 & Hst & _ & Hg);
    try done.
  - apply all_strings_define; [done|constructor].
  - apply obj_define_NoDup, NoDup_nil_2.
  - rewrite Hst. simpl. rewrite Hg. unfold obj_get.
    rewrite obj_get_own_define, decide_False by done. simpl.
    by rewrite bool_decide_eq_true_2.
Qed.

Lemma native_inherited_key_read_witness :
  let f := fst (setStorage (js "localStorage") (createClientStorage None) fresh_world) in
  getItem f (js "toString") fresh_world = Ret vnull
  ∧ getItem f (js "toString") (snd (setItem 0 f (js "name") (js "Alice") fresh_world))
    = Ret (VInherited (js "toString")).
Proof.
  apply (native_inherited_key_read 0
           (fst (setStorage (js "localStorage") (createClientStorage None) fresh_world))
           (js "name") (js "toString") (js "Alice") fresh_world).
  - split; [by left|reflexivity].
  - reflexivity.
  - reflexivity.
  - left. reflexivity.
  - cbv [object_prototype_keys map]. rewrite !elem_of_cons. do 8 right. left. reflexivity.
  - discriminate.
Defined.

Lemma getItem_ext f1 f2 k w :
  key_allowed f1 k = key_allowed f2 k → storage f1 = storage f2 → direct f1 = direct f2 →
  getItem f1 k w = getItem f2 k w.
Proof. intros Ha Hs Hd. unfold getItem. by rewrite Ha, Hs, Hd. Qed.

(** X9. A facade holds no data of its own.  Under [localStorage] or
    [sessionStorage], in a store whose root entry is absent, empty or the
    text of an object of strings: what one facade writes with [setItem(k, v)],
    for a non-empty [v] and a key other than [__proto__] that both facades
    allow, is what any other facade, whatever its allow-list otherwise, reads
    with [getItem(k)] once it selects the same backend; selecting the backend
    changes no store. *)
Theorem native_store_shared now (kind : list N) (a1 a2 : option (list (list N)))
    (k v : list N) (w : world) :
  kind ∈ map js ["localStorage"; "sessionStorage"]%string →
  key_allowed (createClientStorage a1) k = true →
  key_allowed (createClientStorage a2) k = true →
  v ≠ [] → k ≠ js "__proto__" →
  let '(f1, w1) := setStorage kind (createClientStorage a1) w in
  root_ok (native_store (storage f1) w1) →
  let '(r, w2) := setItem now f1 k v w1 in
  let '(f2, w3) := setStorage kind (createClientStorage a2) w2 in
  r = Ret () ∧ w3 = w2 ∧ getItem f2 k w3 = Ret (vstr v).
Proof.
  intros Hkind H1 H2 Hv Hp.
  destruct (setStorage_on_native kind (createClientStorage a1) w Hkind) as [[Hn Hd] Hw].
  destruct (setStorage kind (createClientStorage a1) w) as [f1 w1] eqn:E1.
  simpl in Hn, Hd, Hw. subst w1. intros Hroot.
  assert (key_allowed f1 k = true ∧ storage f1 = storage (fst (setStorage kind (createClientStorage a2) w))
          ∧ key_allowed (fst (setStorage kind (createClientStorage a2) w)) k = true
          ∧ direct (fst (setStorage kind (createClientStorage a2) w)) = false) as (Hk1 & Hs & Hk2 & Hd2).
  { simpl in Hkind. rewrite !elem_of_cons in Hkind.
    destruct Hkind as [->|[->|H]]; [| |by apply elem_of_nil in H];
      rewrite ?setStorage_local, ?setStorage_session in *; by simplify_eq. }
  destruct (setItem_then_getItem now f1 k v w Hn Hd Hk1 Hv Hp Hroot) as (w2 & -> & _ & Hg).
  destruct (setStorage_on_native kind (createClientStorage a2) w2 Hkind) as [_ Hw2].
  assert (fst (setStorage kind (createClientStorage a2) w2)
          = fst (setStorage kind (createClientStorage a2) w)) as Hf.
  { simpl in Hkind. rewrite !elem_of_cons in Hkind.
    destruct Hkind as [->|[->|H]]; [| |by apply elem_of_nil in H]; done. }
  destruct (setStorage kind (createClientStorage a2) w2) as [f2 w3] eqn:E2.
  simpl in Hw2, Hf. subst w3 f2. repeat split.
  rewrite <- Hg. apply getItem_ext; [by rewrite Hk1, Hk2|done|by rewrite Hd, Hd2].
Qed.

Lemma native_store_shared_witness :
  let '(f1, w1) := setStorage (js "localStorage") (createClientStorage None) fresh_world in
  let '(r, w2) := setItem 0 f1 (js "name") (js "Alice") w1 in
  let '(f2, w3) := setStorage (js "localStorage")
                     (createClientStorage (Some [js "name"])) w2 in
  r = Ret () ∧ w3 = w2 ∧ getItem f2 (js "name") w3 = Ret (vstr (js "Alice")).
Proof.
  apply (native_store_shared 0 (js "localStorage") None (Some [js "name"])
           (js "name") (js "Alice") fresh_world).
  - simpl. rewrite !elem_of_cons. left. reflexivity.
  - reflexivity.
  - reflexivity.
  - discriminate.
  - discriminate.
  - exact I.
Defined.

Lemma returns_or_refuses_map {A B : Type} (r : outcome A) (g : outcome B) :
  match r with
  | Ret _ => ∃ b, g = Ret b
  | Throw e => g = Throw e
  | Unmodelled => g = Unmodelled
  end →
  returns_or_refuses r → returns_or_refuses g.
Proof.
  destruct r as [a|e|]; intros Hg [[a' Hr]|[key Hr]]; simplify_eq.
  - by left.
  - right. by eexists.
Qed.

Lemma run_call_native f c w :
  on_native f → root_ok (native_store (storage f) w) →
  returns_or_refuses (fst (run_call f c w))
  ∧ root_ok (native_store (storage f) (snd (run_call f c w))).
Proof.
  intros Hon Hroot. pose proof Hon as [Hn Hd]. destruct c as [now k v|k|now k]; simpl.
  - pose proof (setItem_root_ok now f k v w Hn Hd Hroot) as Hr.
    assert (returns_or_refuses (fst (setItem now f k v w))) as Ho.
    { unfold setItem. rewrite Hd. destruct (key_allowed f k); [|right; by eexists].
      simpl. rewrite storage_getItem_native by done. unfold root_ok in Hroot. left.
      destruct (native_store (storage f) w !! STORAGE_NAME) as [[|c text]|]; simpl.
      - eexists. apply store_object_root_ok; [done|].
        apply all_strings_define; [done|constructor].
      - destruct Hroot as [?|(o & -> & Ho)]; [done|].
        eexists. apply store_object_root_ok; [done|]. by apply all_strings_assign.
      - eexists. apply store_object_root_ok; [done|].
        apply all_strings_define; [done|constructor]. }
    destruct (setItem now f k v w) as [[u|e|] w1]; simpl in *;
      (split; [|done]); revert Ho; apply returns_or_refuses_map; eauto.
  - assert (returns_or_refuses (getItem f k w)) as Ho.
    { unfold getItem. rewrite Hd. destruct (key_allowed f k); [|right; by eexists].
      simpl. rewrite storage_getItem_native by done. unfold root_ok in Hroot. left.
      destruct (native_store (storage f) w !! STORAGE_NAME) as [[|c text]|]; simpl;
        try by eexists.
      destruct Hroot as [?|(o & -> & Ho)]; [done|]. by eexists. }
    destruct (getItem f k w) as [u|e|]; simpl;
      (split; [|done]); revert Ho; apply returns_or_refuses_map; eauto.
  - pose proof (removeItem_root_ok now f k w Hn Hd Hroot) as Hr.
    assert (returns_or_refuses (fst (removeItem now f k w))) as Ho.
    { unfold removeItem. rewrite Hd. destruct (key_allowed f k); [|right; by eexists].
      simpl. rewrite storage_getItem_native by done. unfold root_ok in Hroot. left.
      destruct (native_store (storage f) w !! STORAGE_NAME) as [[|c text]|]; simpl;
        try by eexists.
      destruct Hroot as [?|(o & -> & Ho)]; [done|].
      eexists. apply store_object_root_ok; [done|]. by apply all_strings_delete. }
    destruct (removeItem now f k w) as [[u|e|] w1]; simpl in *;
      (split; [|done]); revert Ho; apply returns_or_refuses_map; eauto.
Qed.

(** X10. A native store that only the facade writes never makes it fail.
    When the root entry is absent, empty or the text of an object of strings,
    every call of every sequence of [setItem], [getItem] and [removeItem]
    returns or is refused by the allow-list (no [SyntaxError], no
    [TypeError]), and the root entry is again of that form afterwards. *)
Theorem native_calls_never_fail (f : facade) (cs : list call) (w : world) :
  on_native f → root_ok (native_store (storage f) w) →
  let '(rs, w') := run_calls f cs w in
  Forall returns_or_refuses rs ∧ root_ok (native_store (storage f) w').
Proof.
  intros Hon. revert w. induction cs as [|c cs IH]; intros w Hroot; simpl; [done|].
  destruct (run_call_native f c w Hon Hroot) as [Ho Hr].
  destruct (run_call f c w) as [r w1]. simpl in Ho, Hr.
  specialize (IH w1 Hr). destruct (run_calls f cs w1) as [rs w2].
  destruct IH as [Hrs Hr2]. split; [by constructor|done].
Qed.

Lemma native_calls_never_fail_witness :
  let f := fst (setStorage (js "localStorage")
                  (createClientStorage (Some [js "name"])) fresh_world) in
  let cs := [CallSet 0 (js "name") (js "Alice"); CallGet (js "role");
             CallRemove 1 (js "name"); CallGet (js "name")] in
  let '(rs, w') := run_calls f cs fresh_world in
  Forall returns_or_refuses rs ∧ root_ok (native_store (storage f) w').
Proof.
  apply (native_calls_never_fail
           (fst (setStorage (js "localStorage")
                   (createClientStorage (Some [js "name"])) fresh_world))
           [CallSet 0 (js "name") (js "Alice"); CallGet (js "role");
            CallRemove 1 (js "name"); CallGet (js "name")] fresh_world).
  - split; [by left|reflexivity].
  - exact I.
Defined.

(** ** The memory backend as a map *)

(** X11. The memory backend is a map whose falsy entries read as [null]:
    after [setItem(k, v)], [getItem(k)] is [v] (or [null] for the empty
    string) and every other key reads as before; after [removeItem(k)],
    [getItem(k)] is [null] and every other key reads as before.  Neither call
    fails. *)
Theorem memory_backend_map now (f : facade) (k k' v : list N) (w : world) :
  key_allowed f k = true → key_allowed f k' = true →
  let '(f1, w0) := setStorage (js "memoryStorage") f w in
  (let '(r, w1) := setItem now f1 k v w0 in
   r = Ret ()
   ∧ getItem f1 k' w1
     = if decide (k' = k) then Ret (if decide (v = []) then vnull else vstr v)
       else getItem f1 k' w0)
  ∧ (let '(r, w1) := removeItem now f1 k w0 in
     r = Ret ()
     ∧ getItem f1 k' w1 = if decide (k' = k) then Ret vnull else getItem f1 k' w0).
Proof.
  intros Hk Hk'. rewrite setStorage_memory.
  destruct (MemoryStorage_constructed w) as [m Hm].
  unfold setItem, removeItem, getItem, key_allowed in *. simpl. rewrite Hk, Hk'. simpl.
  unfold MemoryStorage.getItem, MemoryStorage.removeItem, MemoryStorage.setItem.
  rewrite Hm. simpl. rewrite lookup_insert, lookup_delete.
  destruct (decide (k' = k)) as [->|Hne].
  - destruct (decide (k = k)) as [_|?]; [|done].
    split; (split; [done|]); [|done]. by destruct v.
  - destruct (decide (k = k')) as [?|_]; [by subst|]. done.
Qed.

Lemma memory_backend_map_witness :
  let '(f1, w0) := setStorage (js "memoryStorage") (createClientStorage None) fresh_world in
  (let '(r, w1) := setItem 0 f1 (js "a") (js "1") w0 in
   r = Ret ()
   ∧ getItem f1 (js "b") w1
     = if decide (js "b" = js "a") then Ret (if decide (js "1" = []) then vnull else vstr (js "1"))
       else getItem f1 (js "b") w0)
  ∧ (let '(r, w1) := removeItem 0 f1 (js "a") w0 in
     r = Ret ()
     ∧ getItem f1 (js "b") w1
       = if decide (js "b" = js "a") then Ret vnull else getItem f1 (js "b") w0).
Proof.
  apply (memory_backend_map 0 (createClientStorage None) (js "a") (js "b") (js "1")
           fresh_world); reflexivity.
Defined.

(** ** The cookie backend, write and read *)

(** X12. [removeItem] of the cookie store rewrites the cookie whether or not
    the key was there.  It starts from the map [o] of the cookie (the empty
    one when the cookie is absent or empty) and serializes [o] without the
    key; when that text holds no semicolon, the call returns and the jar
    holds the cookie [__react__storage] with the text as its value, the
    [expires] text of the clock reading plus seven days and path [/]. *)
Theorem cookie_remove now (key : list N) (w : world) (o : list (list N * json)) :
  cookie_map w o →
  ∃ text, JSON_stringify (obj_delete key o) = Some text
    ∧ obj_get_own key (obj_delete key o) = None
    ∧ (Forall (fun c => c ≠ 59) text →
       CookieStorage.removeItem now STORAGE_NAME key w
       = (Ret (), set_jar (jar_store (written_cookie now text) (jar w)) w)
       ∧ written_cookie now text
           ∈ jar (snd (CookieStorage.removeItem now STORAGE_NAME key w))).
Proof.
  intros Hmap. pose proof (cookie_map_all_strings w o Hmap) as Ho.
  destruct (JSON_stringify_is_Some (obj_delete key o)) as [t Ht];
    [by apply all_strings_delete|].
  exists (123 :: t). split; [done|]. split.
  { by rewrite obj_get_own_delete, decide_True. }
  intros Hs.
  rewrite (CookieStorage_removeItem_map now key w o Hmap).
  rewrite (CookieStorage_write_spec now _ (123 :: t)) by done.
  split; [done|]. apply jar_store_elem.
Qed.

Lemma cookie_remove_witness :
  cookie_map fresh_world []
  ∧ CookieStorage.removeItem 0 STORAGE_NAME (js "a") fresh_world
    = (Ret (), set_jar (jar_store (written_cookie 0 (js "{}")) []) fresh_world).
Proof.
  assert (cookie_map fresh_world []) as Hmap by (left; split; reflexivity).
  split; [exact Hmap|].
  destruct (cookie_remove 0 (js "a") fresh_world [] Hmap) as (text & Ht & _ & Hw).
  vm_compute in Ht. injection Ht as <-.
  apply Hw. apply Forall_ne_forallb. reflexivity.
Defined.

Lemma plain_text_forallb s :
  forallb (fun c => negb (c =? 59) && negb (c =? 37)) s = true → plain_text s.
Proof.
  unfold plain_text. rewrite forallb_forall, Forall_forall.
  intros H c Hc%list_elem_of_In. specialize (H c Hc).
  apply andb_true_iff in H as [H1 H2].
  apply negb_true_iff in H1, H2. apply N.eqb_neq in H1, H2. by split.
Qed.

Lemma plain_text_no_semicolon s : plain_text s → Forall (fun c => c ≠ 59) s.
Proof. intros Hp. eapply Forall_impl; [exact Hp|]. by intros ? [? _]. Qed.

Lemma written_cookie_plain now text :
  plain_text text → plain_cookie (written_cookie now text).
Proof.
  intros Hp. unfold plain_cookie. simpl. repeat split; try done.
  - by apply plain_text_forallb.
  - apply STORAGE_NAME_plain.
Qed.

Lemma jar_store_Forall (P : cookie → Prop) c jar :
  P c → Forall P jar → Forall P (jar_store c jar).
Proof.
  intros Hc. induction 1 as [|d r Hd Hr IH]; cbn [jar_store]; [by repeat constructor|].
  repeat case_match; by repeat constructor.
Qed.

Lemma jar_store_find name c jar :
  c_name c = name →
  Forall (fun d => c_name d = name → c_path d = c_path c) jar →
  find (cookie_named name) (jar_store c jar) = Some c.
Proof.
  intros Hc. unfold cookie_named.
  induction 1 as [|d r Hd Hr IH]; cbn [jar_store find].
  { by rewrite bool_decide_eq_true_2. }
  destruct (same_cookie c d) eqn:Hsame.
  { cbn [find]. by rewrite bool_decide_eq_true_2. }
  assert (bool_decide (c_name d = name) = false) as Hname.
  { apply bool_decide_eq_false_2. intros Hn. specialize (Hd Hn).
    unfold same_cookie in Hsame. apply andb_false_iff in Hsame as [H|H];
      apply bool_decide_eq_false in H; congruence. }
  repeat case_match; cbn [find]; rewrite ?Hname; try done.
  by rewrite bool_decide_eq_true_2.
Qed.

Lemma own_cookie_at_root_store now text jar :
  own_cookie_at_root jar → own_cookie_at_root (jar_store (written_cookie now text) jar).
Proof. intros Hj. by apply jar_store_Forall. Qed.

Lemma cookie_map_NoDup w o : cookie_map w o → NoDup (map fst o) ∧ all_strings o.
Proof.
  intros [[_ ->]|(s & _ & _ & Hp & Ho)].
  - split; [apply NoDup_nil_2|constructor].
  - split; [by eapply JSON_parse_object_NoDup|done].
Qed.

(** What the cookie store reads after it wrote [text]. *)
Lemma CookieStorage_read_written now text w :
  plain_text text →
  Forall plain_cookie (jar w) → own_cookie_at_root (jar w) →
  CookieStorage.getItem STORAGE_NAME
    (set_jar (jar_store (written_cookie now text) (jar w)) w) = Ret text.
Proof.
  intros Hp Hj Hroot.
  rewrite CookieStorage_getItem_plain
    by (simpl; apply visible_cookies_Forall, jar_store_Forall;
        [by apply written_cookie_plain|done]).
  simpl. unfold jar_value.
  rewrite find_visible by by apply own_cookie_at_root_store.
  by rewrite (jar_store_find STORAGE_NAME).
Qed.

(** X13. The round trip of the cookie backend.  In a jar of plain cookies,
    when the serialized map holds no semicolon and no percent sign, [setItem]
    returns and every following [getItem], whatever its key, returns the text
    of the whole updated map; that text parses to an object in which the key
    maps to the value, and the jar is again of the same form. *)
Theorem cookie_round_trip now (f : facade) (key value : list N) (w : world)
    (o : list (list N * json)) (text : list N) :
  on_cookie f w → key_allowed f key = true →
  Forall plain_cookie (jar w) → own_cookie_at_root (jar w) →
  cookie_map w o →
  JSON_stringify (obj_assign key value o) = Some text → plain_text text →
  let '(r, w1) := setItem now f key value w in
  let o1 := obj_build (obj_assign key value o) in
  r = Ret ()
  ∧ (∀ k', key_allowed f k' = true → getItem f k' w1 = Ret (vstr text))
  ∧ JSON_parse text = Ret (JObj o1)
  ∧ (key ≠ js "__proto__" → obj_get_own key o1 = Some (JStr value))
  ∧ on_cookie f w1 ∧ cookie_map w1 o1
  ∧ Forall plain_cookie (jar w1) ∧ own_cookie_at_root (jar w1).
Proof.
  intros (Hty & Hst & Hc) Hk Hj Hroot Hmap Ht Hp.
  destruct (cookie_map_NoDup w o Hmap) as [Hnd Ho].
  assert (setItem now f key value w
          = (Ret (), set_jar (jar_store (written_cookie now text) (jar w)) w)) as ->.
  { unfold setItem, direct. rewrite Hk, Hty, Hst. simpl. rewrite Hc.
    rewrite (CookieStorage_setItem_map now key value w o) by done.
    apply CookieStorage_write_spec; [done|by apply plain_text_no_semicolon]. }
  pose proof (CookieStorage_read_written now text w Hp Hj Hroot) as Hread.
  pose proof (JSON_parse_stringify _ _ Ht) as Hparse.
  destruct (JSON_stringify_shape _ _ Ht) as [t Hshape].
  repeat split; try done.
  - intros k' Hk'. unfold getItem, direct. rewrite Hk', Hty, Hst. simpl.
    rewrite Hc. by rewrite Hread.
  - intros Hproto. rewrite obj_get_own_build, obj_get_own_rev by by apply obj_assign_NoDup.
    by rewrite obj_assign_define, obj_get_own_define, decide_True.
  - right. exists text. repeat split; try done; [by subst|].
    by apply all_strings_build, all_strings_assign.
  - simpl. apply jar_store_Forall; [by apply written_cookie_plain|done].
  - simpl. by apply own_cookie_at_root_store.
Qed.

Lemma cookie_round_trip_witness :
  let f := fst (setStorage (js "cookieStorage") (createClientStorage None) fresh_world) in
  let w := snd (setStorage (js "cookieStorage") (createClientStorage None) fresh_world) in
  let text := jsq "{'a':'1'}" in
  let '(r, w1) := setItem 0 f (js "a") (js "1") w in
  let o1 := obj_build (obj_assign (js "a") (js "1") []) in
  r = Ret ()
  ∧ (∀ k', key_allowed f k' = true → getItem f k' w1 = Ret (vstr text))
  ∧ JSON_parse text = Ret (JObj o1)
  ∧ (js "a" ≠ js "__proto__" → obj_get_own (js "a") o1 = Some (JStr (js "1")))
  ∧ on_cookie f w1 ∧ cookie_map w1 o1
  ∧ Forall plain_cookie (jar w1) ∧ own_cookie_at_root (jar w1).
Proof.
  apply (cookie_round_trip 0
           (fst (setStorage (js "cookieStorage") (createClientStorage None) fresh_world))
           (js "a") (js "1")
           (snd (setStorage (js "cookieStorage") (createClientStorage None) fresh_world))
           [] (jsq "{'a':'1'}")).
  - repeat split; reflexivity.
  - reflexivity.
  - constructor.
  - constructor.
  - left. split; reflexivity.
  - reflexivity.
  - apply plain_text_forallb. reflexivity.
Defined.

(** ** A percent sign in a value *)

Lemma short_escape_unit c e : short_escape c = Some e → escape_unit e.
Proof.
  unfold short_escape, escape_unit. repeat case_match; intros [= <-]; lia.
Qed.

Lemma hex_digit_unit d : d < 16 → escape_unit (hex_digit d).
Proof.
  intros Hd. unfold hex_digit, escape_unit.
  destruct (d <? 10) eqn:E; [apply N.ltb_lt in E|apply N.ltb_ge in E]; lia.
Qed.

Lemma unicode_escape_units c : Forall escape_unit (unicode_escape c).
Proof.
  unfold unicode_escape.
  repeat (apply Forall_cons_2;
          [first [apply hex_digit_unit, N.mod_lt; lia | unfold escape_unit; lia]|]).
  apply Forall_nil_2.
Qed.

(** Quoting keeps out every unit that was not in the string and is not one
    of the escape units. *)
Lemma quote_units_Forall (P : N → Prop) n : ∀ s,
  (length s ≤ n)%nat → (∀ c, escape_unit c → P c) → Forall P s → Forall P (quote_units s).
Proof.
  induction n as [|n IH]; intros s Hn Hesc Hs.
  { destruct s; [constructor|simpl in Hn; lia]. }
  destruct s as [|c r]; [constructor|]. simpl in Hn.
  apply Forall_cons in Hs as [Hc Hr]. cbn [quote_units].
  assert (Forall P (unicode_escape c)) as Hu
    by (eapply Forall_impl; [apply unicode_escape_units|done]).
  assert (Forall P (quote_units r)) as Hqr by (apply IH; [lia|done|done]).
  destruct (short_escape c) as [e|] eqn:He.
  { constructor; [apply Hesc; unfold escape_unit; lia|].
    constructor; [by eapply Hesc, short_escape_unit|done]. }
  destruct (c <? 32); [by apply Forall_app_2|].
  destruct (is_high_surrogate c).
  - destruct r as [|d r']; [done|].
    destruct (is_low_surrogate d); [|by apply Forall_app_2].
    apply Forall_cons in Hr as [Hd Hr']. constructor; [done|]. constructor; [done|].
    apply IH; [simpl in Hn; lia|done|done].
  - destruct (is_low_surrogate c); [by apply Forall_app_2|by constructor].
Qed.

Lemma QuoteJSONString_Forall (P : N → Prop) s :
  (∀ c, escape_unit c → P c) → Forall P s → Forall P (QuoteJSONString s).
Proof.
  intros Hesc Hs. unfold QuoteJSONString.
  constructor; [apply Hesc; unfold escape_unit; lia|].
  apply Forall_app_2; [by apply (quote_units_Forall P (length s))|].
  constructor; [apply Hesc; unfold escape_unit; lia|constructor].
Qed.

(** A percent sign is copied as it is, wherever it stands. *)
Lemma quote_units_percent n : ∀ a b,
  (length a ≤ n)%nat →
  quote_units (a ++ 37 :: b) = quote_units a ++ 37 :: quote_units b.
Proof.
  induction n as [|n IH]; intros a b Hn.
  { destruct a; [done|simpl in Hn; lia]. }
  destruct a as [|c r]; [done|]. simpl in Hn.
  assert (quote_units (37 :: b) = 37 :: quote_units b) as H37 by done.
  cbn [app quote_units].
  destruct (short_escape c); [by rewrite IH by lia|].
  destruct (c <? 32); [by rewrite IH, <- app_assoc by lia|].
  destruct (is_high_surrogate c).
  - destruct r as [|d r']; cbn [app].
    + change (is_low_surrogate 37) with false. cbv iota. by rewrite H37.
    + destruct (is_low_surrogate d).
      * cbn [app]. by rewrite (IH r' b) by (simpl in Hn; lia).
      * change (d :: r' ++ 37 :: b) with ((d :: r') ++ 37 :: b).
        by rewrite (IH (d :: r') b), <- app_assoc by lia.
  - destruct (is_low_surrogate c); rewrite IH by lia; [by rewrite <- app_assoc|done].
Qed.

(** After quoting, a string still begins with a unit that is no
    hexadecimal digit if it did before. *)
Lemma quote_units_head c r :
  hex_value c = None → ∃ x rest, quote_units (c :: r) = x :: rest ∧ hex_value x = None.
Proof.
  intros Hc. cbn [quote_units]. unfold unicode_escape.
  repeat case_match; cbn [app]; by do 2 eexists.
Qed.

Lemma decodeURIComponent_plain_app p s :
  Forall (fun c => c ≠ 37) p →
  decodeURIComponent (p ++ s) = app_opt (Some p) (decodeURIComponent s).
Proof.
  induction 1 as [|c r Hc Hr IH]; cbn [app decodeURIComponent].
  - by destruct (decodeURIComponent s).
  - rewrite (proj2 (N.eqb_neq c 37) Hc). cbn [negb]. rewrite IH.
    by destruct (decodeURIComponent s).
Qed.

(** A percent sign that is not followed by a hexadecimal digit is a
    malformed escape. *)
Lemma decodeURIComponent_bad_escape p x rest :
  Forall (fun c => c ≠ 37) p → hex_value x = None →
  decodeURIComponent (p ++ 37 :: x :: rest) = None.
Proof.
  intros Hp Hx. rewrite decodeURIComponent_plain_app by done.
  cbn [decodeURIComponent]. change (37 =? 37) with true. cbn [negb].
  destruct rest as [|y r1]; [done|]. unfold hex_byte. by rewrite Hx.
Qed.

Lemma cookie_text_bad_escape (c : cookie) p x rest cs :
  c ∈ cs → Forall (fun d => d = c ∨ plain_cookie d) cs →
  Forall (fun u => u ≠ 37) (c_name c) → c_value c = p ++ 37 :: x :: rest →
  Forall (fun u => u ≠ 37) p → hex_value x = None →
  decodeURIComponent (cookie_text cs) = None.
Proof.
  intros Hin Hjar Hn Hv Hp Hx. induction Hjar as [|d r Hd Hr IH]; [by apply elem_of_nil in Hin|].
  cbn [cookie_text].
  destruct Hd as [->|(Hdn & Hdv & _)].
  - rewrite Hv.
    replace (c_name c ++ 61 :: (p ++ 37 :: x :: rest)
               ++ match r with [] => [] | _ :: _ => 59 :: 32 :: cookie_text r end)
      with ((c_name c ++ 61 :: p) ++ 37 :: x ::
              (rest ++ match r with [] => [] | _ :: _ => 59 :: 32 :: cookie_text r end))
      by (rewrite <- !app_assoc; cbn [app]; do 2 f_equal; by rewrite <- app_assoc).
    apply decodeURIComponent_bad_escape; [|done].
    apply Forall_app_2; [done|]. by constructor.
  - apply elem_of_cons in Hin as [->|Hin].
    { rewrite Hv in Hdv. apply Forall_app in Hdv as [_ Hdv].
      apply Forall_cons in Hdv as [[_ ?] _]. done. }
    specialize (IH Hin). destruct r as [|e r']; [by apply elem_of_nil in Hin|].
    rewrite decodeURIComponent_plain_app
      by (eapply Forall_impl; [exact Hdn|]; by intros ? [_ ?]).
    cbn [decodeURIComponent]. change (61 =? 37) with false. cbn [negb].
    rewrite decodeURIComponent_plain_app
      by (eapply Forall_impl; [exact Hdv|]; by intros ? [_ ?]).
    cbn [decodeURIComponent]. change (59 =? 37) with false. change (32 =? 37) with false.
    cbn [negb]. by rewrite IH.
Qed.

Lemma obj_define_nil {V : Type} k (v : V) : obj_define k v [] = [(k, v)].
Proof. unfold obj_define. simpl. by destruct (array_index k). Qed.

(** The text of a map with the one member [key: a%b], cut at the percent
    sign. *)
Lemma stringify_percent key a b :
  (∀ c, head b = Some c → hex_value c = None) →
  ∃ x rest,
    JSON_stringify [(key, JStr (a ++ 37 :: b))]
    = Some ((123 :: QuoteJSONString key ++ 58 :: 34 :: quote_units a) ++ 37 :: x :: rest)
    ∧ hex_value x = None
    ∧ x :: rest = quote_units b ++ [34; 125].
Proof.
  intros Hb.
  assert (∃ x rest, quote_units b ++ [34; 125] = x :: rest ∧ hex_value x = None)
    as (x & rest & Hq & Hx).
  { destruct b as [|c b']; [by exists 34, [125]|].
    destruct (quote_units_head c b' (Hb c eq_refl)) as (x & rest & -> & Hx).
    by exists x, (rest ++ [34; 125]). }
  exists x, rest. split; [|by split].
  unfold JSON_stringify. cbn [stringify_members]. rewrite <- Hq. f_equal.
  unfold QuoteJSONString at 2. rewrite (quote_units_percent (length a)) by done.
  rewrite app_nil_r. cbn [app]. f_equal.
  rewrite <- !app_assoc. cbn [app]. do 3 f_equal.
  rewrite <- !app_assoc. cbn [app]. do 2 f_equal. by rewrite <- app_assoc.
Qed.

(** X14. The cookie backend does not encode what it stores, yet decodes
    what it reads.  Take a jar of plain cookies in which the cookie
    [__react__storage] is absent or empty, an allowed key other than
    [__proto__] without semicolon or percent sign, and a value [a%b] in which
    [a] holds no semicolon and no percent sign, [b] holds no semicolon, and
    the percent sign is followed by no hexadecimal digit.  [setItem] of that
    value returns, and in the jar it leaves every [getItem], [setItem] and
    [removeItem] of an allowed key throws the [URIError] of
    [decodeURIComponent] and leaves the jar as it is: while the cookie is in
    the jar, no call through the facade repairs it. *)
Theorem cookie_percent_breaks now (f : facade) (key a b : list N) (w : world) :
  on_cookie f w → key_allowed f key = true →
  Forall plain_cookie (jar w) → CookieStorage.getItem STORAGE_NAME w = Ret [] →
  plain_text key → key ≠ js "__proto__" →
  plain_text a → Forall (fun c => c ≠ 59) b →
  (∀ c, head b = Some c → hex_value c = None) →
  let '(r, w1) := setItem now f key (a ++ 37 :: b) w in
  r = Ret ()
  ∧ ∀ now' k' v', key_allowed f k' = true →
      getItem f k' w1 = Throw URIError
      ∧ setItem now' f k' v' w1 = (Throw URIError, w1)
      ∧ removeItem now' f k' w1 = (Throw URIError, w1).
Proof.
  intros (Hty & Hst & Hc) Hk Hj Habsent Hkey Hproto Ha Hb Hhead.
  destruct (stringify_percent key a b Hhead) as (x & rest & Ht & Hx & Hq).
  set (p := 123 :: QuoteJSONString key ++ 58 :: 34 :: quote_units a) in Ht.
  set (text := p ++ 37 :: x :: rest) in Ht.
  assert (∀ c, escape_unit c → c ≠ 59 ∧ c ≠ 37) as Hesc
    by (unfold escape_unit; intros; lia).
  assert (Forall (fun c => c ≠ 59 ∧ c ≠ 37) p) as Hp.
  { subst p. constructor; [done|]. apply Forall_app_2; [by apply QuoteJSONString_Forall|].
    do 2 (constructor; [done|]). by apply (quote_units_Forall _ (length a)). }
  assert (Forall (fun c => c ≠ 59) text) as Hsemi.
  { subst text. apply Forall_app_2; [eapply Forall_impl; [exact Hp|]; by intros ? [? _]|].
    constructor; [done|]. rewrite Hq. apply Forall_app_2; [|by repeat constructor].
    apply (quote_units_Forall _ (length b)); [done| |done].
    intros c Hc'. by apply Hesc. }
  assert (setItem now f key (a ++ 37 :: b) w
          = (Ret (), set_jar (jar_store (written_cookie now text) (jar w)) w)) as ->.
  { unfold setItem, direct. rewrite Hk, Hty, Hst. simpl. rewrite Hc.
    unfold CookieStorage.setItem. rewrite Habsent.
    rewrite obj_assign_define, obj_define_nil by done.
    by apply CookieStorage_write_spec. }
  split; [done|].
  set (w1 := set_jar (jar_store (written_cookie now text) (jar w)) w).
  assert (CookieStorage.getItem STORAGE_NAME w1 = Throw URIError) as Hread.
  { unfold CookieStorage.getItem, document_cookie.
    rewrite (cookie_text_bad_escape (written_cookie now text) p x rest); [done|..].
    - apply list_elem_of_filter. split; [done|apply jar_store_elem].
    - apply visible_cookies_Forall, jar_store_Forall; [by left|].
      eapply Forall_impl; [exact Hj|]. by right.
    - by apply Forall_ne_forallb.
    - done.
    - eapply Forall_impl; [exact Hp|]. by intros ? [_ ?].
    - done. }
  intros now' k' v' Hk'. unfold getItem, setItem, removeItem, direct.
  rewrite Hk', Hty, Hst. simpl. rewrite Hc.
  unfold CookieStorage.setItem, CookieStorage.removeItem. by rewrite Hread.
Qed.

Lemma cookie_percent_breaks_witness :
  let f := fst (setStorage (js "cookieStorage") (createClientStorage None) fresh_world) in
  let w := snd (setStorage (js "cookieStorage") (createClientStorage None) fresh_world) in
  let '(r, w1) := setItem 0 f (js "sale") (js "100" ++ 37 :: js " off") w in
  r = Ret ()
  ∧ ∀ now' k' v', key_allowed f k' = true →
      getItem f k' w1 = Throw URIError
      ∧ setItem now' f k' v' w1 = (Throw URIError, w1)
      ∧ removeItem now' f k' w1 = (Throw URIError, w1).
Proof.
  apply (cookie_percent_breaks 0
           (fst (setStorage (js "cookieStorage") (createClientStorage None) fresh_world))
           (js "sale") (js "100") (js " off")
           (snd (setStorage (js "cookieStorage") (createClientStorage None) fresh_world))).
  - repeat split; reflexivity.
  - reflexivity.
  - constructor.
  - reflexivity.
  - apply plain_text_forallb. reflexivity.
  - discriminate.
  - apply plain_text_forallb. reflexivity.
  - apply Forall_ne_forallb. reflexivity.
  - intros c [= <-]. reflexivity.
Defined.

Lemma native_set_remove_get_witness :
  let '(f1, w0) := setStorage (js "localStorage") (createClientStorage None) fresh_world in
  let '(r1, w1) := setItem 0 f1 (js "name") (js "Alice") w0 in
  let '(r2, w2) := removeItem 1 f1 (js "name") w1 in
  r1 = Ret () ∧ r2 = Ret () ∧ getItem f1 (js "name") w2 = Ret vnull.
Proof.
  apply (native_set_remove_get 0 (js "localStorage") (createClientStorage None)
           (js "name") (js "Alice") fresh_world).
  - cbv [map]. apply elem_of_cons. by left.
  - reflexivity.
  - discriminate.
  - unfold object_prototype_keys. cbv [map].
    repeat (apply not_elem_of_cons; split;
            [intros H; vm_compute in H; discriminate H|]).
    apply not_elem_of_nil.
  - vm_compute. reflexivity.
Defined.
